(** * The IR core of [lang/ir.cpp]: printer, AST lowering, visitor dispatch

    A shallow embedding of the three visitors of [src/lang/ir.cpp]
    ([IRPrinter], [LowerAST], [TypeCheck]) and of the parts of [ir.h] they
    call, followed by the properties of the lowering pass.

    Ownership in the source is a tree: a [StmtList] owns its statements
    through [std::unique_ptr], an [IfStmt] / [ForStmt] owns its bodies.  The
    embedding is therefore an inductive tree.  Raw pointers ([Statement *]
    operands, [parent] back links) are references by identity; a statement
    carries its identity [sid], a block its address [addr], and a raw
    pointer is the number of the object it points to. *)

From Stdlib Require Import List ZArith String Bool Arith Lia.
Import ListNotations.
Local Open Scope string_scope.
Local Open Scope list_scope.
Local Open Scope nat_scope.

(** ** 1. Data model *)

(** [Identifier]: the source only ever asks for its [name()]. *)
Definition Identifier := string.

(** Modelled from the spec: the enumeration [BinaryType] of [ir.h] is not
    part of the source at hand; these are the operators [test_ast] uses. *)
Inductive BinaryType : Type :=
| add | sub | mul | div | cmp_lt | cmp_gt.

(** Modelled from the spec: the expression classes of [ir.h] (section 3:
    identifier reference, binary expression, constant). *)
Inductive Expr : Type :=
| IdExpression (id : Identifier)
| ConstExpression (value : Z)
| BinaryOpExpression (type : BinaryType) (lhs rhs : Expr).

(** A raw [Statement *]: the identity of the statement pointed to. *)
Definition StmtRef := nat.

(** What every [Statement] has: its identity and the [parent] back link
    (the address of a [StmtList], or null). *)
Record Header : Type := mkHeader { sid : nat; parent : option nat }.

(** The statement classes, each with the members [ir.cpp] reads.  The
    condition of an [IfStmt] and the bounds of a [ForStmt] are expressions
    (the printer calls [serialize()] on them); the branches of an [IfStmt]
    may be null (both passes test them), the body of a [ForStmt] is
    visited without a test. *)
Inductive Statement : Type :=
| AssignStmt (h : Header) (id : Identifier) (rhs : Expr)
| AllocaStmt (h : Header) (lhs : Identifier)
| BinaryOpStmt (h : Header) (type : BinaryType) (lhs rhs : StmtRef)
| IfStmt (h : Header) (condition : Expr)
         (true_statements false_statements : option StmtList)
| FrontendPrintStmt (h : Header) (expr : Expr)
| PrintStmt (h : Header) (stmt : StmtRef)
| ConstStatement (h : Header) (value : Z)
| ForStmt (h : Header) (loop_var_id : Identifier) (begin end_ : Expr)
          (body : StmtList)
| LocalLoadStmt (h : Header) (id : Identifier)
| LocalStoreStmt (h : Header) (id : Identifier) (stmt : StmtRef)
with StmtList : Type :=
| mkStmtList (addr : nat) (statements : list Statement).

(** [VecStatement]: statements that are not yet attached to a block. *)
Definition VecStatement := list Statement.

Definition addr (l : StmtList) : nat :=
  match l with mkStmtList a _ => a end.

Definition statements (l : StmtList) : list Statement :=
  match l with mkStmtList _ ss => ss end.

Definition header (s : Statement) : Header :=
  match s with
  | AssignStmt h _ _ | AllocaStmt h _ | BinaryOpStmt h _ _ _
  | IfStmt h _ _ _ | FrontendPrintStmt h _ | PrintStmt h _
  | ConstStatement h _ | ForStmt h _ _ _ _ | LocalLoadStmt h _
  | LocalStoreStmt h _ _ => h
  end.

Definition set_header (h : Header) (s : Statement) : Statement :=
  match s with
  | AssignStmt _ i e => AssignStmt h i e
  | AllocaStmt _ i => AllocaStmt h i
  | BinaryOpStmt _ t a b => BinaryOpStmt h t a b
  | IfStmt _ c t f => IfStmt h c t f
  | FrontendPrintStmt _ e => FrontendPrintStmt h e
  | PrintStmt _ r => PrintStmt h r
  | ConstStatement _ v => ConstStatement h v
  | ForStmt _ i b e l => ForStmt h i b e l
  | LocalLoadStmt _ i => LocalLoadStmt h i
  | LocalStoreStmt _ i r => LocalStoreStmt h i r
  end.

(** The assignment [stmt->parent = this] made by a block that takes a
    statement in. *)
Definition set_parent (a : nat) (s : Statement) : Statement :=
  set_header (mkHeader (sid (header s)) (Some a)) s.

(** A statement fresh from [std::make_unique]: a new identity, no parent. *)
Definition fresh (n : nat) : Header := mkHeader n None.

(** [v.back()]; [None] stands for calling it on an empty vector. *)
Definition back (v : VecStatement) : option Statement := last (map Some v) None.

(** ** 2. Induction over the statement tree *)

Definition on_option (Q : StmtList -> Prop) (o : option StmtList) : Prop :=
  match o with Some l => Q l | None => True end.

Section StatementInduction.
Variable P : Statement -> Prop.
Variable Q : StmtList -> Prop.
Hypothesis HAssign : forall h i e, P (AssignStmt h i e).
Hypothesis HAlloca : forall h i, P (AllocaStmt h i).
Hypothesis HBinary : forall h t a b, P (BinaryOpStmt h t a b).
Hypothesis HIf : forall h c t f,
    on_option Q t -> on_option Q f -> P (IfStmt h c t f).
Hypothesis HFrontendPrint : forall h e, P (FrontendPrintStmt h e).
Hypothesis HPrint : forall h r, P (PrintStmt h r).
Hypothesis HConst : forall h v, P (ConstStatement h v).
Hypothesis HFor : forall h i b e l, Q l -> P (ForStmt h i b e l).
Hypothesis HLoad : forall h i, P (LocalLoadStmt h i).
Hypothesis HStore : forall h i r, P (LocalStoreStmt h i r).
Hypothesis HList : forall a ss, Forall P ss -> Q (mkStmtList a ss).

Fixpoint Statement_tree_ind (s : Statement) : P s :=
  match s with
  | AssignStmt h i e => HAssign h i e
  | AllocaStmt h i => HAlloca h i
  | BinaryOpStmt h t a b => HBinary h t a b
  | IfStmt h c t f =>
      HIf h c t f
        (match t return on_option Q t with
         | Some l => StmtList_tree_ind l
         | None => I
         end)
        (match f return on_option Q f with
         | Some l => StmtList_tree_ind l
         | None => I
         end)
  | FrontendPrintStmt h e => HFrontendPrint h e
  | PrintStmt h r => HPrint h r
  | ConstStatement h v => HConst h v
  | ForStmt h i b e l => HFor h i b e l (StmtList_tree_ind l)
  | LocalLoadStmt h i => HLoad h i
  | LocalStoreStmt h i r => HStore h i r
  end
with StmtList_tree_ind (l : StmtList) : Q l :=
  match l with
  | mkStmtList a ss =>
      HList a ss
        ((fix all (ss : list Statement) : Forall P ss :=
            match ss with
            | [] => Forall_nil P
            | s :: r => Forall_cons s (Statement_tree_ind s) (all r)
            end) ss)
  end.
End StatementInduction.

(** ** 3. State and control: the monad of the passes

    A pass runs against a state.  A computation ends normally, with an
    [IRModifiedException] in flight, or in a fatal stop (a failed assertion,
    or a step that C++ leaves undefined).  The lowering pass runs against
    the heap: the tree under the root block and the counter that numbers
    new statements. *)

Inductive Completion (S A : Type) : Type :=
| Return (a : A) (s : S)
| Throw (s : S)
| Abort.
Arguments Return {S A} a s.
Arguments Throw {S A} s.
Arguments Abort {S A}.

Definition M (S A : Type) : Type := S -> Completion S A.

Definition ret {S A} (a : A) : M S A := fun s => Return a s.

Definition bind {S A B} (m : M S A) (k : A -> M S B) : M S B :=
  fun s => match m s with
           | Return a s' => k a s'
           | Throw s' => Throw s'
           | Abort => Abort
           end.

Notation "x <- m ;; k" := (bind m (fun x => k))
  (at level 61, m at next level, right associativity).
Notation "m ;;; k" := (bind m (fun _ => k))
  (at level 61, right associativity).

(** The state of the lowering pass. *)
Record Context : Type := mkContext { root : StmtList; id_counter : nat }.

(** [throw IRModifiedException()] *)
Definition throw {S A} : M S A := fun s => Throw s.

(** [std::make_unique<T>(...)]: the new statement gets the next identity. *)
Definition make_unique (mk : Header -> Statement) : M Context Statement :=
  fun c => Return (mk (fresh (id_counter c)))
                  (mkContext (root c) (S (id_counter c))).

(** [v.back().get()] *)
Definition back_get {S} (v : VecStatement) : M S StmtRef :=
  fun c => match back v with
           | Some s => Return (sid (header s)) c
           | None => Abort
           end.

(** ** 4. Expression flattening *)

(** Modelled from the spec: [Expression::flatten] of [ir.h] (section 4.3):
    a constant emits one [ConstStmt]; an identifier emits one
    [LocalLoadStmt]; a binary expression flattens its left operand, then
    its right operand, appending both, then emits one [BinaryOpStmt] that
    refers to the last statement of each operand's output. *)
Fixpoint flatten (e : Expr) (ret_v : VecStatement) : M Context VecStatement :=
  match e with
  | ConstExpression v =>
      s <- make_unique (fun h => ConstStatement h v) ;;
      ret (ret_v ++ [s])
  | IdExpression i =>
      s <- make_unique (fun h => LocalLoadStmt h i) ;;
      ret (ret_v ++ [s])
  | BinaryOpExpression t l r =>
      v1 <- flatten l ret_v ;;
      lhs_statement <- back_get v1 ;;
      v2 <- flatten r v1 ;;
      rhs_statement <- back_get v2 ;;
      s <- make_unique (fun h => BinaryOpStmt h t lhs_statement rhs_statement) ;;
      ret (v2 ++ [s])
  end.

(** ** 5. Structural replacement *)

(** The position of the statement a pointer refers to, searched from the
    front as the loop of [replace_with] does. *)
Fixpoint locate (target : StmtRef) (ss : list Statement) : option nat :=
  match ss with
  | [] => None
  | s :: r => if sid (header s) =? target then Some 0
              else option_map S (locate target r)
  end.

(** Modelled from the spec: [StmtList::replace_with] of [ir.h] (section
    4.1): the replacement is spliced in at the position of the target and
    every replacement node gets this block as its parent; the call fails
    when the target is not found in this block ([None]). *)
Definition replace_with (l : StmtList) (target : StmtRef)
    (replacement : VecStatement) : option StmtList :=
  match locate target (statements l) with
  | None => None
  | Some i =>
      Some (mkStmtList (addr l)
              (firstn i (statements l)
                 ++ map (set_parent (addr l)) replacement
                 ++ skipn (S i) (statements l)))
  end.

(** Following a [StmtList *] into the heap and running a member function
    on the block found there. *)
Inductive Deref (A : Type) : Type :=
| Dangling
| Failed
| Updated (a : A).
Arguments Dangling {A}.
Arguments Failed {A}.
Arguments Updated {A} a.

Definition Deref_map {A B} (f : A -> B) (d : Deref A) : Deref B :=
  match d with
  | Dangling => Dangling
  | Failed => Failed
  | Updated a => Updated (f a)
  end.

(** The search through the statements of a block for the block a pointer
    refers to: the first statement that holds it decides. *)
Fixpoint search_block (at_stmt : Statement -> Deref Statement)
    (ss : list Statement) : Deref (list Statement) :=
  match ss with
  | [] => Dangling
  | s :: r =>
      match at_stmt s with
      | Updated s' => Updated (s' :: r)
      | Failed => Failed
      | Dangling => Deref_map (cons s) (search_block at_stmt r)
      end
  end.

Fixpoint at_block_stmt (a : nat) (f : StmtList -> option StmtList)
    (s : Statement) : Deref Statement :=
  match s with
  | IfStmt h c t e =>
      match match t with Some l => at_block a f l | None => Dangling end with
      | Updated l' => Updated (IfStmt h c (Some l') e)
      | Failed => Failed
      | Dangling =>
          Deref_map (fun l' => IfStmt h c t (Some l'))
            (match e with Some l => at_block a f l | None => Dangling end)
      end
  | ForStmt h i b e l => Deref_map (ForStmt h i b e) (at_block a f l)
  | _ => Dangling
  end
with at_block (a : nat) (f : StmtList -> option StmtList)
    (l : StmtList) : Deref StmtList :=
  match l with
  | mkStmtList a0 ss =>
      if a0 =? a then
        match f l with Some l' => Updated l' | None => Failed end
      else
        Deref_map (mkStmtList a0) (search_block (at_block_stmt a f) ss)
  end.

(** [stmt->parent->replace_with(stmt, replacement)].  The computation
    ends in [Abort] in three cases that [at_block] tells apart: the parent
    link is null, or it names no block of the tree ([Dangling]): the call
    goes through an invalid pointer, which C++ leaves undefined; or
    [replace_with] does not find the statement in the block ([Failed]):
    the stop the program raises itself. *)
Definition parent_replace_with (s : Statement) (replacement : VecStatement)
    : M Context unit :=
  fun c =>
    match parent (header s) with
    | None => Abort
    | Some a =>
        match at_block a (fun l => replace_with l (sid (header s)) replacement)
                (root c) with
        | Updated r => Return tt (mkContext r (id_counter c))
        | _ => Abort
        end
    end.

(** ** 6. The lowering pass [LowerAST] *)

(** [for (auto &stmt : stmt_list->statements) stmt->accept(this);] *)
Fixpoint for_each {S : Type} (visit : Statement -> M S unit)
    (ss : list Statement) : M S unit :=
  match ss with
  | [] => ret tt
  | stmt :: r => visit stmt ;;; for_each visit r
  end.

Fixpoint LowerAST_visit (s : Statement) : M Context unit :=
  match s with
  | AllocaStmt _ _ => ret tt
  | BinaryOpStmt _ _ _ _ => ret tt
  | IfStmt _ _ true_statements false_statements =>
      match true_statements with
      | Some l => LowerAST_visit_StmtList l
      | None => ret tt
      end ;;;
      match false_statements with
      | Some l => LowerAST_visit_StmtList l
      | None => ret tt
      end
  | LocalLoadStmt _ _ => ret tt
  | LocalStoreStmt _ _ _ => ret tt
  | PrintStmt _ _ => ret tt
  | FrontendPrintStmt _ expr =>
      flattened <- flatten expr [] ;;
      v <- back_get flattened ;;
      print <- make_unique (fun h => PrintStmt h v) ;;
      parent_replace_with s (flattened ++ [print]) ;;;
      throw
  | ConstStatement _ _ => ret tt
  | ForStmt _ _ _ _ body => LowerAST_visit_StmtList body
  | AssignStmt _ id rhs =>
      flattened <- flatten rhs [] ;;
      v <- back_get flattened ;;
      local_store <- make_unique (fun h => LocalStoreStmt h id v) ;;
      parent_replace_with s (flattened ++ [local_store]) ;;;
      throw
  end
with LowerAST_visit_StmtList (stmt_list : StmtList) : M Context unit :=
  match stmt_list with
  | mkStmtList _ ss => for_each LowerAST_visit ss
  end.

(** [LowerAST::expand]: flattening into a vector that starts empty. *)
Definition LowerAST_expand (expr : Expr) : M Context VecStatement :=
  flatten expr [].

(** [try { body } catch (IRModifiedException) { handler }] *)
Definition try_catch {S A} (body handler : M S A) : M S A :=
  fun s => match body s with
           | Throw s' => handler s'
           | completion => completion
           end.

(** [LowerAST::run], with the root block for [node].  One pass through the
    body of [while (true)] sets [modified] and leaves the loop when it is
    false.  [fuel] bounds the number of passes; [None] is a loop still
    running when the fuel is used up.  A result [Some (Throw _)] would be
    an [IRModifiedException] that leaves [run]. *)
Fixpoint LowerAST_run (fuel : nat) (c : Context)
    : option (Completion Context unit) :=
  match fuel with
  | 0 => None
  | S fuel' =>
      match try_catch (LowerAST_visit_StmtList (root c) ;;; ret false)
                      (ret true) c with
      | Return modified c' =>
          if negb modified then Some (Return tt c') else LowerAST_run fuel' c'
      | Throw c' => Some (Throw c')
      | Abort => Some Abort
      end
  end.

(** ** 7. Observations on trees *)

Definition is_AssignStmt (s : Statement) : bool :=
  match s with AssignStmt _ _ _ => true | _ => false end.

Definition is_FrontendPrintStmt (s : Statement) : bool :=
  match s with FrontendPrintStmt _ _ => true | _ => false end.

(** The high-level variants, those the lowering pass rewrites. *)
Definition high_level (s : Statement) : bool :=
  is_AssignStmt s || is_FrontendPrintStmt s.

(** A statement that owns no block. *)
Definition leaf (s : Statement) : bool :=
  match s with
  | IfStmt _ _ _ _ | ForStmt _ _ _ _ _ => false
  | _ => true
  end.

(** [collect g] gathers [g] over every statement of a tree, in the order
    of a traversal. *)
Fixpoint collect {X : Type} (g : Statement -> list X) (s : Statement)
    : list X :=
  g s ++
  match s with
  | IfStmt _ _ t f =>
      match t with Some l => collect_list g l | None => [] end ++
      match f with Some l => collect_list g l | None => [] end
  | ForStmt _ _ _ _ l => collect_list g l
  | _ => []
  end
with collect_list {X : Type} (g : Statement -> list X) (l : StmtList)
    : list X :=
  match l with
  | mkStmtList _ ss => flat_map (collect g) ss
  end.

Definition only (p : Statement -> bool) (s : Statement) : list unit :=
  if p s then [tt] else [].

(** The number of statements of a tree that satisfy [p]. *)
Definition count (p : Statement -> bool) (l : StmtList) : nat :=
  List.length (collect_list (only p) l).

(** The identity of a statement, and the identities of all statements of
    a tree. *)
Definition sid_of (s : Statement) : nat := sid (header s).

Definition idg (s : Statement) : list nat := [sid_of s].

Definition stmt_ids (l : StmtList) : list nat := collect_list idg l.

(** What a block-owning statement holds besides its blocks: the condition
    of an [IfStmt], the two bounds of a [ForStmt], each with the identity
    of the statement. *)
Definition own_exprs (s : Statement) : list (nat * list Expr) :=
  match s with
  | IfStmt _ c _ _ => [(sid_of s, [c])]
  | ForStmt _ _ b e _ => [(sid_of s, [b; e])]
  | _ => []
  end.

Definition control_exprs (l : StmtList) : list (nat * list Expr) :=
  collect_list own_exprs l.

(** The addresses of all blocks of a tree. *)
Fixpoint block_addrs_stmt (s : Statement) : list nat :=
  match s with
  | IfStmt _ _ t f =>
      match t with Some l => block_addrs l | None => [] end ++
      match f with Some l => block_addrs l | None => [] end
  | ForStmt _ _ _ _ l => block_addrs l
  | _ => []
  end
with block_addrs (l : StmtList) : list nat :=
  match l with
  | mkStmtList a ss => a :: flat_map block_addrs_stmt ss
  end.

(** Every [parent] link is the address of the block that owns the
    statement. *)
Fixpoint parents_ok_stmt (a : nat) (s : Statement) : bool :=
  match parent (header s) with
  | Some p => p =? a
  | None => false
  end &&
  match s with
  | IfStmt _ _ t f =>
      match t with Some l => parents_ok l | None => true end &&
      match f with Some l => parents_ok l | None => true end
  | ForStmt _ _ _ _ l => parents_ok l
  | _ => true
  end
with parents_ok (l : StmtList) : bool :=
  match l with
  | mkStmtList a ss => forallb (parents_ok_stmt a) ss
  end.

Fixpoint distinct (l : list nat) : bool :=
  match l with
  | [] => true
  | x :: r => negb (existsb (Nat.eqb x) r) && distinct r
  end.

(** What holds of any heap: distinct statements have distinct identities,
    and the counter is above every identity it has handed out. *)
Definition heap_ok (c : Context) : bool :=
  distinct (stmt_ids (root c)) &&
  forallb (fun i => i <? id_counter c) (stmt_ids (root c)).

(** A state the front end can have built: a heap in which distinct blocks
    have distinct addresses and every [parent] link is right. *)
Definition well_formed (c : Context) : bool :=
  heap_ok c &&
  distinct (block_addrs (root c)) &&
  parents_ok (root c).

(** The first high-level statement a traversal comes to. *)
Fixpoint first_of (f : Statement -> option Statement) (ss : list Statement)
    : option Statement :=
  match ss with
  | [] => None
  | s :: r => match f s with Some t => Some t | None => first_of f r end
  end.

Fixpoint first_high_level_stmt (s : Statement) : option Statement :=
  match s with
  | AssignStmt _ _ _ | FrontendPrintStmt _ _ => Some s
  | IfStmt _ _ t f =>
      match match t with Some l => first_high_level l | None => None end with
      | Some x => Some x
      | None => match f with Some l => first_high_level l | None => None end
      end
  | ForStmt _ _ _ _ l => first_high_level l
  | _ => None
  end
with first_high_level (l : StmtList) : option Statement :=
  match l with
  | mkStmtList _ ss => first_of first_high_level_stmt ss
  end.

(** [splice t new l l']: [l'] is [l] with the statement [t] replaced, in
    the block that owns it, by the statements [new], each with that block
    as its parent; everything else is as it was. *)
Inductive splice (t : Statement) (new : VecStatement)
    : StmtList -> StmtList -> Prop :=
| splice_here a pre post :
    splice t new (mkStmtList a (pre ++ t :: post))
                 (mkStmtList a (pre ++ map (set_parent a) new ++ post))
| splice_true a pre post h c l l' f :
    splice t new l l' ->
    splice t new (mkStmtList a (pre ++ IfStmt h c (Some l) f :: post))
                 (mkStmtList a (pre ++ IfStmt h c (Some l') f :: post))
| splice_false a pre post h c o l l' :
    splice t new l l' ->
    splice t new (mkStmtList a (pre ++ IfStmt h c o (Some l) :: post))
                 (mkStmtList a (pre ++ IfStmt h c o (Some l') :: post))
| splice_for a pre post h i b e l l' :
    splice t new l l' ->
    splice t new (mkStmtList a (pre ++ ForStmt h i b e l :: post))
                 (mkStmtList a (pre ++ ForStmt h i b e l' :: post)).

Definition any_statement (s : Statement) : bool := true.

Definition owns_blocks (s : Statement) : bool := negb (leaf s).

Definition has_else (s : Statement) : bool :=
  match s with
  | IfStmt _ _ _ (Some _) => true
  | _ => false
  end.

(** The number of nodes of an expression tree, every occurrence counted. *)
Fixpoint expr_size (e : Expr) : nat :=
  match e with
  | BinaryOpExpression _ l r => expr_size l + expr_size r + 1
  | _ => 1
  end.

(** What flattening emits: statements that own no block, are none of the
    high-level variants, and are numbered upwards from the counter. *)
Definition plain (s : Statement) : Prop :=
  leaf s = true /\ high_level s = false.

Definition emitted (n : nat) (out : VecStatement) : Prop :=
  out <> [] /\ map sid_of out = seq n (List.length out) /\ Forall plain out.

(** ** 8. The printer [IRPrinter] *)

Local Open Scope Z_scope.

(** The printer object: its member [current_indent], and what it has
    written so far, one entry for each call of [print] (a call ends its
    text with a newline). *)
Record IRPrinter : Type :=
  mkIRPrinter { current_indent : Z; output : list string }.

(** The loop [for (int i = 0; i < current_indent; i++) fmt::print("  ")]. *)
Definition indentation (n : Z) : string :=
  String.concat EmptyString (repeat "  " (Z.to_nat n)).

Definition print (text : string) : M IRPrinter unit :=
  fun p => Return tt (mkIRPrinter (current_indent p)
                        (output p ++ [(indentation (current_indent p) ++ text)%string])).

Definition indent_by (d : Z) : M IRPrinter unit :=
  fun p => Return tt (mkIRPrinter (current_indent p + d) (output p)).

Section Printer.
(** Declared in [ir.h] and elsewhere, not part of the source at hand:
    [Statement::type_hint()], [Statement::name()] (a function of the
    statement's identity), [Expression::serialize()],
    [binary_type_name] and the formatting of a constant. *)
Variable type_hint : Statement -> string.
Variable name : StmtRef -> string.
Variable serialize : Expr -> string.
Variable binary_type_name : BinaryType -> string.
Variable format_value : Z -> string.

Local Open Scope string_scope.

Fixpoint IRPrinter_visit (s : Statement) : M IRPrinter unit :=
  match s with
  | AssignStmt _ id rhs => print (id ++ " = " ++ serialize rhs)
  | AllocaStmt _ lhs => print (type_hint s ++ " alloca " ++ lhs)
  | BinaryOpStmt h type lhs rhs =>
      print (type_hint s ++ " " ++ name (sid h) ++ " = "
               ++ binary_type_name type ++ " " ++ name lhs ++ " " ++ name rhs)
  | IfStmt _ condition true_statements false_statements =>
      print ("if " ++ serialize condition ++ " {") ;;;
      match true_statements with
      | Some l => IRPrinter_visit_StmtList l
      | None => ret tt
      end ;;;
      match false_statements with
      | Some l => print "} else {" ;;; IRPrinter_visit_StmtList l
      | None => ret tt
      end ;;;
      print "}"
  | FrontendPrintStmt _ expr => print ("print " ++ serialize expr)
  | PrintStmt _ stmt => print (type_hint s ++ " print " ++ name stmt)
  | ConstStatement h value =>
      print (type_hint s ++ " " ++ name (sid h) ++ " = const "
               ++ format_value value)
  | ForStmt _ loop_var_id begin end_ body =>
      print ("for " ++ loop_var_id ++ " in range(" ++ serialize begin
               ++ ", " ++ serialize end_ ++ ") {") ;;;
      IRPrinter_visit_StmtList body ;;;
      print "}"
  | LocalLoadStmt h id => print (name (sid h) ++ " = load " ++ id)
  | LocalStoreStmt _ id stmt => print ("[store] " ++ id ++ " = " ++ name stmt)
  end
with IRPrinter_visit_StmtList (stmt_list : StmtList) : M IRPrinter unit :=
  match stmt_list with
  | mkStmtList _ ss =>
      indent_by 1 ;;;
      for_each IRPrinter_visit ss ;;;
      indent_by (-1)
  end.

(** [IRPrinter::run]: a new printer starts at [current_indent = -1]. *)
Definition IRPrinter_run (node : StmtList) : Completion IRPrinter unit :=
  IRPrinter_visit_StmtList node (mkIRPrinter (-1) []).

(** The output format as section 6 of the specification words it: the
    text of each variant, behind two spaces for each level of block
    depth. *)
Definition line (depth : nat) (text : string) : string :=
  String.concat EmptyString (repeat "  " depth) ++ text.

Fixpoint format_stmt (depth : nat) (s : Statement) : list string :=
  match s with
  | AssignStmt _ id rhs => [line depth (id ++ " = " ++ serialize rhs)]
  | AllocaStmt _ lhs => [line depth (type_hint s ++ " alloca " ++ lhs)]
  | BinaryOpStmt h type lhs rhs =>
      [line depth (type_hint s ++ " " ++ name (sid h) ++ " = "
                     ++ binary_type_name type ++ " " ++ name lhs ++ " "
                     ++ name rhs)]
  | IfStmt _ cond t f =>
      ([line depth ("if " ++ serialize cond ++ " {")]
         ++ match t with Some l => format_block (S depth) l | None => [] end
         ++ match f with
            | Some l => line depth "} else {" :: format_block (S depth) l
            | None => []
            end
         ++ [line depth "}"])%list
  | FrontendPrintStmt _ expr => [line depth ("print " ++ serialize expr)]
  | PrintStmt _ stmt => [line depth (type_hint s ++ " print " ++ name stmt)]
  | ConstStatement h value =>
      [line depth (type_hint s ++ " " ++ name (sid h) ++ " = const "
                     ++ format_value value)]
  | ForStmt _ var begin end_ body =>
      ([line depth ("for " ++ var ++ " in range(" ++ serialize begin
                      ++ ", " ++ serialize end_ ++ ") {")]
         ++ format_block (S depth) body
         ++ [line depth "}"])%list
  | LocalLoadStmt h id => [line depth (name (sid h) ++ " = load " ++ id)]
  | LocalStoreStmt _ id stmt =>
      [line depth ("[store] " ++ id ++ " = " ++ name stmt)]
  end
with format_block (depth : nat) (l : StmtList) : list string :=
  match l with
  | mkStmtList _ ss => flat_map (format_stmt depth) ss
  end.
End Printer.

Local Close Scope Z_scope.

(** ** 9. Visitor dispatch *)

Inductive IRNode : Type :=
| NodeStatement (s : Statement)
| NodeStmtList (l : StmtList).

(** The discriminant of a node. *)
Inductive Variant : Type :=
| VStmtList | VAssignStmt | VAllocaStmt | VBinaryOpStmt | VIfStmt
| VFrontendPrintStmt | VPrintStmt | VConstStatement | VForStmt
| VLocalLoadStmt | VLocalStoreStmt.

Definition variant_of (n : IRNode) : Variant :=
  match n with
  | NodeStmtList _ => VStmtList
  | NodeStatement s =>
      match s with
      | AssignStmt _ _ _ => VAssignStmt
      | AllocaStmt _ _ => VAllocaStmt
      | BinaryOpStmt _ _ _ _ => VBinaryOpStmt
      | IfStmt _ _ _ _ => VIfStmt
      | FrontendPrintStmt _ _ => VFrontendPrintStmt
      | PrintStmt _ _ => VPrintStmt
      | ConstStatement _ _ => VConstStatement
      | ForStmt _ _ _ _ _ => VForStmt
      | LocalLoadStmt _ _ => VLocalLoadStmt
      | LocalStoreStmt _ _ _ => VLocalStoreStmt
      end
  end.

(** Modelled from the spec: the class [IRVisitor] of [ir.h] (section 4.2):
    a visitor declares handlers for a subset of the variants and carries
    the flag [allow_undefined_visitor]. *)
Record IRVisitor (S : Type) : Type := mkIRVisitor {
  allow_undefined_visitor : bool;
  visit : Variant -> option (IRNode -> M S unit)
}.
Arguments allow_undefined_visitor {S} _.
Arguments visit {S} _ _.

(** Modelled from the spec: the constructor of [IRVisitor]; dispatch is
    strict unless a pass opts out, and no variant has a handler until a
    pass declares one. *)
Definition IRVisitor_base (S : Type) : IRVisitor S :=
  mkIRVisitor S false (fun _ => None).

(** Modelled from the spec: [IRNode::accept] of [ir.h] (section 4.2): the
    handler declared for the variant runs; without one the visit is fatal
    for a strict visitor and does nothing for a permissive one. *)
Definition accept {S : Type} (node : IRNode) (visitor : IRVisitor S)
    : M S unit :=
  match visit visitor (variant_of node) with
  | Some handler => handler node
  | None => if allow_undefined_visitor visitor then ret tt else fun _ => Abort
  end.

(** [class PropagateSchedule : public IRVisitor {};] *)
Definition PropagateSchedule : IRVisitor unit := IRVisitor_base unit.

(** [class TypeCheck]: its constructor sets [allow_undefined_visitor] and
    the class declares no handler. *)
Definition TypeCheck : IRVisitor unit :=
  mkIRVisitor unit true (visit (IRVisitor_base unit)).

(** ** 10. The program of [test_ast]

    A tree for the program [test_ast] hands to [LowerAST::run]: four
    declarations, two assignments, prints, two conditionals and a nest of
    two loops.  The front end that builds the tree is not part of the
    source at hand; identities and addresses are given in the order of the
    program text. *)

Definition id_a : Expr := IdExpression "a".
Definition id_b : Expr := IdExpression "b".
Definition id_p : Expr := IdExpression "p".
Definition id_q : Expr := IdExpression "q".
Definition id_i : Expr := IdExpression "i".
Definition id_j : Expr := IdExpression "j".

Definition at_ (i a : nat) : Header := mkHeader i (Some a).

Definition test_ast : Context :=
  mkContext
    (mkStmtList 0
       [ AllocaStmt (at_ 0 0) "a";
         AllocaStmt (at_ 1 0) "b";
         AllocaStmt (at_ 2 0) "p";
         AllocaStmt (at_ 3 0) "q";
         AssignStmt (at_ 4 0) "a" (BinaryOpExpression add id_a id_b);
         AssignStmt (at_ 5 0) "p" (BinaryOpExpression add id_p id_q);
         FrontendPrintStmt (at_ 6 0) id_a;
         IfStmt (at_ 7 0)
           (BinaryOpExpression cmp_lt id_a (ConstExpression 500))
           (Some (mkStmtList 1 [FrontendPrintStmt (at_ 8 1) id_b]))
           (Some (mkStmtList 2 [FrontendPrintStmt (at_ 9 2) id_a]));
         IfStmt (at_ 10 0)
           (BinaryOpExpression cmp_gt id_a (ConstExpression 5))
           (Some (mkStmtList 3
              [ AssignStmt (at_ 11 3) "b"
                  (BinaryOpExpression div
                     (BinaryOpExpression add id_b (ConstExpression 1))
                     (ConstExpression 3));
                AssignStmt (at_ 12 3) "b"
                  (BinaryOpExpression mul id_b (ConstExpression 3)) ]))
           (Some (mkStmtList 4
              [ AssignStmt (at_ 13 4) "b"
                  (BinaryOpExpression add id_b (ConstExpression 2));
                AssignStmt (at_ 14 4) "b"
                  (BinaryOpExpression sub id_b (ConstExpression 4)) ]));
         ForStmt (at_ 15 0) "i" (ConstExpression 0) (ConstExpression 100)
           (mkStmtList 5
              [ ForStmt (at_ 16 5) "j" (ConstExpression 0) (ConstExpression 200)
                  (mkStmtList 6
                     [FrontendPrintStmt (at_ 17 6)
                        (BinaryOpExpression add id_i id_j)]) ]);
         FrontendPrintStmt (at_ 18 0) id_b ])
    19.

(** The tree of [test_ast] after [LowerAST::run]. *)
Definition test_ast_lowered : Context :=
  Eval vm_compute in
    match LowerAST_run 12 test_ast with
    | Some (Return _ c) => c
    | _ => test_ast
    end.


(** The two expressions of section 8 of the specification, each as the
    only statement of a tree, and a conditional without branches. *)
Definition x_plus_1 : Expr :=
  BinaryOpExpression add (IdExpression "x") (ConstExpression 1).

Definition a_lt_500 : Expr :=
  BinaryOpExpression cmp_lt (IdExpression "a") (ConstExpression 500).

Definition assign_example : Context :=
  mkContext (mkStmtList 0 [AssignStmt (at_ 0 0) "x" x_plus_1]) 1.

Definition print_example : Context :=
  mkContext (mkStmtList 0 [FrontendPrintStmt (at_ 0 0) a_lt_500]) 1.

Definition lone_if : StmtList :=
  mkStmtList 0 [IfStmt (at_ 0 0) id_a None None].

(** An assignment whose parent link names a block that does not hold it. *)
Definition misparented : Context :=
  mkContext
    (mkStmtList 0
       [ IfStmt (at_ 0 0) id_a
           (Some (mkStmtList 1 [AssignStmt (at_ 1 0) "x" x_plus_1]))
           None ])
    2.

(** A conditional with both branches around a loop, all lowered. *)
Definition nested : StmtList :=
  mkStmtList 0
    [ IfStmt (at_ 0 0) a_lt_500
        (Some (mkStmtList 1
           [ ForStmt (at_ 1 1) "i" (ConstExpression 0) (ConstExpression 100)
               (mkStmtList 2 [PrintStmt (at_ 2 2) 7]) ]))
        (Some (mkStmtList 3 [LocalStoreStmt (at_ 3 3) "b" 7])) ].

(** ** 11. Auxiliary notions for the proofs *)

(** The body shared by the handlers of [AssignStmt] and
    [FrontendPrintStmt]: flatten, append one statement that refers to the
    last one, replace, throw. *)
Definition rewrite_body (s : Statement) (e : Expr)
    (mk : StmtRef -> Header -> Statement) : M Context unit :=
  flattened <- flatten e [] ;;
  v <- back_get flattened ;;
  x <- make_unique (mk v) ;;
  parent_replace_with s (flattened ++ [x]) ;;;
  throw.

(** The traversal [m] ends where the handler of the statement [o] ends, or
    normally when there is none. *)
Definition stops_at (o : option Statement) (m : M Context unit) : Prop :=
  forall c,
    match o with
    | None => m c = Return tt c
    | Some t => high_level t = true /\ m c = LowerAST_visit t c
    end.

Section Located.
Variable t : Statement.
Variable new : VecStatement.

(** The call the handler of [t] makes on the block its parent link
    names. *)
Definition replace_target : StmtList -> option StmtList :=
  fun l => replace_with l (sid_of t) new.

(** The statement [s] holds [t] in one of its blocks, the right one is
    found through the parent link of [t], and the replacement is a
    splice. *)
Definition located_in_stmt (s : Statement) : Prop :=
  exists a s',
    parent (header t) = Some a /\ In a (block_addrs_stmt s) /\
    at_block_stmt a replace_target s = Updated s' /\
    forall a1 pre post,
      splice t new (mkStmtList a1 (pre ++ s :: post))
                   (mkStmtList a1 (pre ++ s' :: post)).

Definition located_in (l : StmtList) : Prop :=
  exists a l',
    parent (header t) = Some a /\ In a (block_addrs l) /\
    at_block a replace_target l = Updated l' /\ splice t new l l'.

Definition locate_stmt_hyp (s : Statement) : Prop :=
  first_high_level_stmt s = Some t -> high_level s = false ->
  NoDup (block_addrs_stmt s) -> NoDup (collect idg s) ->
  (forall a0, parents_ok_stmt a0 s = true -> located_in_stmt s).

Definition locate_list_hyp (l : StmtList) : Prop :=
  first_high_level l = Some t ->
  NoDup (block_addrs l) -> NoDup (stmt_ids l) -> parents_ok l = true ->
  located_in l.

(** Whatever block the parent link of [t] leads to: when the call
    succeeds there, it has replaced [t] itself. *)
Definition replaced_in_stmt (s : Statement) : Prop :=
  NoDup (collect idg s) ->
  forall a s',
    at_block_stmt a replace_target s = Updated s' ->
    In (sid_of t) (tl (collect idg s)) /\
    (first_high_level_stmt s = Some t ->
     forall a1 pre post,
       splice t new (mkStmtList a1 (pre ++ s :: post))
                    (mkStmtList a1 (pre ++ s' :: post))).

Definition replaced_in (l : StmtList) : Prop :=
  NoDup (stmt_ids l) ->
  forall a r,
    at_block a replace_target l = Updated r ->
    In (sid_of t) (stmt_ids l) /\
    (first_high_level l = Some t -> splice t new l r).
End Located.

(** [g] looks at a statement but not into the blocks it owns, and not at
    its parent link. *)
Definition local {X} (g : Statement -> list X) : Prop :=
  (forall h c t f t' f', g (IfStmt h c t f) = g (IfStmt h c t' f')) /\
  (forall h i b e l l', g (ForStmt h i b e l) = g (ForStmt h i b e l')) /\
  (forall a s, g (set_parent a s) = g s).

Section PrinterAgreement.
Variable type_hint : Statement -> string.
Variable name : StmtRef -> string.
Variable serialize : Expr -> string.
Variable binary_type_name : BinaryType -> string.
Variable format_value : Z -> string.

(** Visiting at depth [d] appends the formatted lines of depth [d] and
    leaves [current_indent] as it was. *)
Definition prints_stmt (s : Statement) : Prop :=
  forall d p, current_indent p = Z.of_nat d ->
    IRPrinter_visit type_hint name serialize binary_type_name format_value
      s p
    = Return tt
        (mkIRPrinter (current_indent p)
           (output p ++ format_stmt type_hint name serialize
                          binary_type_name format_value d s)).

Definition prints_block (l : StmtList) : Prop :=
  forall d p, (current_indent p + 1)%Z = Z.of_nat d ->
    IRPrinter_visit_StmtList type_hint name serialize binary_type_name
      format_value l p
    = Return tt
        (mkIRPrinter (current_indent p)
           (output p ++ format_block type_hint name serialize
                          binary_type_name format_value d l)).
End PrinterAgreement.

(** [restarts n c c']: [n] traversals in a row, each from the root of the
    state the one before left, each ended by an [IRModifiedException]. *)
Inductive restarts : nat -> Context -> Context -> Prop :=
| restarts_none c : restarts 0 c c
| restarts_again n c c1 c' :
    LowerAST_visit_StmtList (root c) c = Throw c1 ->
    restarts n c1 c' ->
    restarts (S n) c c'.

(** ** 12. Further observations: what is pending, what is settled *)




(** A statement without its parent link and without the contents of its
    blocks. *)
Definition shape (s : Statement) : Statement :=
  match s with
  | IfStmt h c _ _ => IfStmt (fresh (sid h)) c None None
  | ForStmt h i b e _ => ForStmt (fresh (sid h)) i b e (mkStmtList 0 [])
  | _ => set_header (fresh (sid_of s)) s
  end.

(** The statements of a tree that are not high-level and were made before
    the counter stood at [n], in the order of a traversal. *)
Definition keep (n : nat) (s : Statement) : list Statement :=
  if high_level s then []
  else if sid_of s <? n then [shape s] else [].

Definition settled (n : nat) (l : StmtList) : list Statement :=
  collect_list (keep n) l.

(** The statements of a tree that are not high-level, in the order of a
    traversal. *)
Definition low_level (l : StmtList) : list Statement :=
  collect_list (fun s => if high_level s then [] else [shape s]) l.

(** The number of statements a high-level statement is replaced by: one
    for each node of its expression and one for the store or the print. *)
Definition replacement_size (s : Statement) : list unit :=
  match s with
  | AssignStmt _ _ rhs => repeat tt (S (expr_size rhs))
  | FrontendPrintStmt _ expr => repeat tt (S (expr_size expr))
  | _ => []
  end.

Definition to_emit (l : StmtList) : nat :=
  List.length (collect_list replacement_size l).

(** Some block of the tree with address [a] has, among its own
    statements, one with identity [x]. *)
Fixpoint holds_stmt (a x : nat) (s : Statement) : bool :=
  match s with
  | IfStmt _ _ t f =>
      match t with Some l => holds a x l | None => false end ||
      match f with Some l => holds a x l | None => false end
  | ForStmt _ _ _ _ l => holds a x l
  | _ => false
  end
with holds (a x : nat) (l : StmtList) : bool :=
  match l with
  | mkStmtList a0 ss =>
      ((a0 =? a) && existsb (fun s => sid_of s =? x) ss)
      || existsb (holds_stmt a x) ss
  end.

(** A statement that no block has taken in and that the pass will not
    rewrite. *)
Definition unattached (s : Statement) : Prop :=
  parent (header s) = None /\ leaf s = true /\ high_level s = false.

Section PrinterAtRoot.
Variable type_hint : Statement -> string.
Variable name : StmtRef -> string.
Variable serialize : Expr -> string.
Variable binary_type_name : BinaryType -> string.
Variable format_value : Z -> string.

(** What [IRPrinter::run] writes when [node] is a statement and not a
    block: the statement at depth 0, and the statements of its blocks at
    depth 0 as well. *)
Definition format_as_root (s : Statement) : list string :=
  match s with
  | IfStmt _ cond t f =>
      [line 0 ("if " ++ serialize cond ++ " {")%string]
        ++ match t with
           | Some l =>
               format_block type_hint name serialize binary_type_name
                 format_value 0 l
           | None => []
           end
        ++ match f with
           | Some l =>
               line 0 "} else {"
                 :: format_block type_hint name serialize binary_type_name
                      format_value 0 l
           | None => []
           end
        ++ [line 0 "}"]
  | ForStmt _ var begin end_ body =>
      [line 0 ("for " ++ var ++ " in range(" ++ serialize begin
                 ++ ", " ++ serialize end_ ++ ") {")%string]
        ++ format_block type_hint name serialize binary_type_name
             format_value 0 body
        ++ [line 0 "}"]
  | _ =>
      format_stmt type_hint name serialize binary_type_name format_value 0 s
  end.
End PrinterAtRoot.

(** * Properties *)

(** [x] is a member of [pre ++ x :: post]. *)
Ltac in_middle := apply in_or_app; right; left; reflexivity.

(** ** Vectors and [back] *)

Lemma back_snoc (v : VecStatement) (s : Statement) : back (v ++ [s]) = Some s.
Proof.
  unfold back. rewrite map_app. simpl. apply last_last.
Qed.

Lemma back_app (v out : VecStatement) :
  out <> [] -> back (v ++ out) = back out.
Proof.
  intros H. destruct (exists_last H) as [out' [s ->]].
  rewrite app_assoc, !back_snoc. reflexivity.
Qed.

(** ** Flattening *)

Lemma emitted_app n out1 out2 :
  emitted n out1 -> emitted (n + List.length out1) out2 ->
  emitted n (out1 ++ out2).
Proof.
  intros (N1 & I1 & P1) (N2 & I2 & P2). repeat split.
  - destruct out1; [congruence | discriminate].
  - rewrite map_app, length_app, seq_app, I1, I2. reflexivity.
  - apply Forall_app; auto.
Qed.

Lemma emitted_one n s :
  sid_of s = n -> plain s -> emitted n [s].
Proof.
  intros E P. repeat split; simpl; try congruence; try apply P.
  constructor; [exact P | constructor].
Qed.

Lemma flatten_spec (e : Expr) :
  forall v c, exists out,
    flatten e v c
      = Return (v ++ out) (mkContext (root c) (id_counter c + List.length out))
    /\ List.length out = expr_size e
    /\ emitted (id_counter c) out.
Proof.
  induction e as [i | z | t l IHl r IHr]; intros v c.
  - exists [LocalLoadStmt (fresh (id_counter c)) i]. simpl.
    unfold bind, make_unique, ret. rewrite Nat.add_1_r.
    repeat split; try discriminate. repeat constructor.
  - exists [ConstStatement (fresh (id_counter c)) z]. simpl.
    unfold bind, make_unique, ret. rewrite Nat.add_1_r.
    repeat split; try discriminate. repeat constructor.
  - destruct (IHl v c) as (o1 & E1 & L1 & M1).
    destruct (IHr (v ++ o1) (mkContext (root c) (id_counter c + List.length o1)))
      as (o2 & E2 & L2 & M2).
    simpl in E2, M2.
    destruct (exists_last (proj1 M1)) as (o1' & s1 & ->).
    destruct (exists_last (proj1 M2)) as (o2' & s2 & ->).
    exists ((o1' ++ [s1]) ++ (o2' ++ [s2]) ++
            [BinaryOpStmt (fresh (id_counter c + List.length (o1' ++ [s1])
                                  + List.length (o2' ++ [s2])))
                          t (sid (header s1)) (sid (header s2))]).
    split; [| split].
    + simpl. unfold bind at 1. rewrite E1.
      unfold bind at 1, back_get at 1.
      rewrite (app_assoc v o1' [s1]), back_snoc.
      rewrite <- (app_assoc v o1' [s1]).
      unfold bind at 1. rewrite E2.
      unfold bind at 1, back_get at 1.
      rewrite (app_assoc (v ++ o1' ++ [s1]) o2' [s2]), back_snoc.
      unfold bind, make_unique, ret. simpl.
      f_equal.
      * rewrite <- !app_assoc. reflexivity.
      * f_equal. rewrite !length_app. simpl. lia.
    + rewrite !length_app in *. simpl in *. lia.
    + apply emitted_app; [exact M1 |].
      apply emitted_app; [exact M2 |].
      apply emitted_one; [reflexivity | split; reflexivity].
Qed.

(** ** The two rewriting handlers *)

Lemma rewrite_body_spec s e mk c :
  (forall v h, header (mk v h) = h /\ plain (mk v h)) ->
  exists out last,
    flatten e [] c
      = Return out (mkContext (root c) (id_counter c + List.length out))
    /\ back out = Some last
    /\ emitted (id_counter c)
         (out ++ [mk (sid_of last) (fresh (id_counter c + List.length out))])
    /\ rewrite_body s e mk c =
       match parent (header s) with
       | None => Abort
       | Some a =>
           match at_block a
                   (fun l => replace_with l (sid_of s)
                      (out ++ [mk (sid_of last)
                                  (fresh (id_counter c + List.length out))]))
                   (root c) with
           | Updated r =>
               Throw (mkContext r (S (id_counter c + List.length out)))
           | _ => Abort
           end
       end.
Proof.
  intros Hmk. destruct (flatten_spec e [] c) as (out & E & L & M).
  simpl in E. destruct (exists_last (proj1 M)) as (o' & last & ->).
  exists (o' ++ [last]), last. split; [exact E |].
  split; [apply back_snoc |]. split.
  - apply emitted_app; [exact M |].
    apply emitted_one; [unfold sid_of; rewrite (proj1 (Hmk _ _)); reflexivity
                       | apply Hmk].
  - unfold rewrite_body. unfold bind at 1. rewrite E.
    unfold bind at 1, back_get at 1. rewrite back_snoc.
    unfold bind at 1, make_unique at 1. simpl root. simpl id_counter.
    unfold bind, parent_replace_with, throw. simpl.
    destruct (parent (header s)) as [a |]; [| reflexivity].
    fold (sid_of s). fold (sid_of last).
    destruct (at_block a _ (root c)); reflexivity.
Qed.

Lemma rewrite_body_never_returns s e mk c u c' :
  (forall v h, header (mk v h) = h /\ plain (mk v h)) ->
  rewrite_body s e mk c <> Return u c'.
Proof.
  intros Hmk. destruct (rewrite_body_spec s e mk c Hmk) as (out & last & _ & _ & _ & ->).
  destruct (parent (header s)); [| discriminate].
  destruct (at_block _ _ _); discriminate.
Qed.

Lemma mk_store_ok id :
  forall v h, header (LocalStoreStmt h id v) = h /\ plain (LocalStoreStmt h id v).
Proof. intros; repeat split. Qed.

Lemma mk_print_ok :
  forall v h, header (PrintStmt h v) = h /\ plain (PrintStmt h v).
Proof. intros; repeat split. Qed.

Lemma high_level_never_returns t c u c' :
  high_level t = true -> LowerAST_visit t c <> Return u c'.
Proof.
  destruct t; try discriminate; intros _.
  - apply (rewrite_body_never_returns _ rhs (fun v h => LocalStoreStmt h id v)).
    apply mk_store_ok.
  - apply (rewrite_body_never_returns _ expr (fun v h => PrintStmt h v)).
    apply mk_print_ok.
Qed.

(** ** A traversal stops at the first high-level statement *)

Lemma stops_at_bind o1 o2 m1 m2 :
  stops_at o1 m1 -> stops_at o2 m2 ->
  stops_at (match o1 with Some t => Some t | None => o2 end) (m1 ;;; m2).
Proof.
  intros H1 H2 c. specialize (H1 c). unfold bind.
  destruct o1 as [t |].
  - destruct H1 as [Ht ->]. split; [exact Ht |].
    destruct (LowerAST_visit t c) as [u c' | |] eqn:E; try reflexivity.
    exfalso. exact (high_level_never_returns _ _ _ _ Ht E).
  - rewrite H1. apply H2.
Qed.

Lemma stops_at_for_each ss :
  Forall (fun s => stops_at (first_high_level_stmt s) (LowerAST_visit s)) ss ->
  stops_at (first_of first_high_level_stmt ss) (for_each LowerAST_visit ss).
Proof.
  induction 1 as [| s r Hs _ IH]; simpl.
  - intros c. reflexivity.
  - apply stops_at_bind; assumption.
Qed.

Lemma traversal_stops_at_first :
  forall l, stops_at (first_high_level l) (LowerAST_visit_StmtList l).
Proof.
  apply (StmtList_tree_ind
           (fun s => stops_at (first_high_level_stmt s) (LowerAST_visit s))
           (fun l => stops_at (first_high_level l) (LowerAST_visit_StmtList l)));
    try (intros; intros c; simpl; first [reflexivity | split; reflexivity]).
  - intros h c t f Ht Hf. simpl.
    apply stops_at_bind.
    + destruct t; [exact Ht | intros c0; reflexivity].
    + destruct f; [exact Hf | intros c0; reflexivity].
  - intros h i b e l Hl. exact Hl.
  - intros a ss H. exact (stops_at_for_each ss H).
Qed.

(** ** Well-formedness, as propositions *)

Lemma distinct_NoDup (l : list nat) : distinct l = true <-> NoDup l.
Proof.
  induction l as [| x r IH]; simpl.
  - split; [constructor | reflexivity].
  - rewrite andb_true_iff, negb_true_iff, IH. split.
    + intros [E N]. constructor; [| exact N].
      intros I. assert (existsb (Nat.eqb x) r = true) as C.
      { apply existsb_exists. exists x. split; [exact I | apply Nat.eqb_refl]. }
      congruence.
    + intros N. inversion N as [| ? ? NI N']; subst. split; [| exact N'].
      destruct (existsb (Nat.eqb x) r) eqn:E; [| reflexivity].
      apply existsb_exists in E. destruct E as (y & I & E).
      apply Nat.eqb_eq in E. subst. contradiction.
Qed.

Lemma In_sid_collect (s : Statement) : In (sid_of s) (collect idg s).
Proof. destruct s; simpl; auto. Qed.

(** ** Following a parent link that is right *)

Lemma at_block_dangling (a : nat) (f : StmtList -> option StmtList) :
  forall l, ~ In a (block_addrs l) -> at_block a f l = Dangling.
Proof.
  apply (StmtList_tree_ind
           (fun s => ~ In a (block_addrs_stmt s) -> at_block_stmt a f s = Dangling)
           (fun l => ~ In a (block_addrs l) -> at_block a f l = Dangling));
    try (intros; reflexivity).
  - intros h c t e Ht He N. simpl in *. rewrite in_app_iff in N.
    destruct t as [l |]; simpl in Ht.
    + rewrite Ht by tauto. destruct e as [l2 |]; [| reflexivity].
      simpl in He. rewrite He by tauto. reflexivity.
    + destruct e as [l2 |]; [| reflexivity].
      simpl in He. rewrite He by tauto. reflexivity.
  - intros h i b e l Hl N. simpl in *. rewrite Hl by exact N. reflexivity.
  - intros a0 ss H N. simpl in *.
    destruct (Nat.eqb_spec a0 a) as [-> | _]; [tauto |].
    assert (~ In a (flat_map block_addrs_stmt ss)) as N' by tauto. clear N.
    induction H as [| s r Hs _ IH]; simpl in *; [reflexivity |].
    rewrite in_app_iff in N'. rewrite Hs by tauto.
    assert (~ In a (flat_map block_addrs_stmt r)) as Nr by tauto.
    specialize (IH Nr).
    destruct (search_block (at_block_stmt a f) r); simpl in *; congruence.
Qed.

Lemma at_block_stmt_dangling (a : nat) (f : StmtList -> option StmtList) s :
  ~ In a (block_addrs_stmt s) -> at_block_stmt a f s = Dangling.
Proof.
  intros N. destruct s; try reflexivity; simpl in *.
  - rewrite in_app_iff in N.
    destruct true_statements as [l |].
    + rewrite at_block_dangling by tauto.
      destruct false_statements as [l2 |]; [| reflexivity].
      rewrite at_block_dangling by tauto. reflexivity.
    + destruct false_statements as [l2 |]; [| reflexivity].
      rewrite at_block_dangling by tauto. reflexivity.
  - rewrite at_block_dangling by exact N. reflexivity.
Qed.

Lemma NoDup_app_l {A} (l1 l2 : list A) : NoDup (l1 ++ l2) -> NoDup l1.
Proof. intros H. apply NoDup_app_remove_r in H. exact H. Qed.

Lemma NoDup_app_r {A} (l1 l2 : list A) : NoDup (l1 ++ l2) -> NoDup l2.
Proof. intros H. apply NoDup_app_remove_l in H. exact H. Qed.

Lemma NoDup_app_disjoint {A} (l1 l2 : list A) x :
  NoDup (l1 ++ l2) -> In x l1 -> In x l2 -> False.
Proof.
  induction l1 as [| y r IH]; simpl; [tauto |].
  intros N [-> | I1] I2; inversion N as [| ? ? NI N']; subst.
  - apply NI. apply in_or_app. right. exact I2.
  - exact (IH N' I1 I2).
Qed.

Lemma locate_here pre t post :
  ~ In (sid_of t) (map sid_of pre) ->
  locate (sid_of t) (pre ++ t :: post) = Some (List.length pre).
Proof.
  induction pre as [| p r IH]; simpl; intros N.
  - unfold sid_of. rewrite Nat.eqb_refl. reflexivity.
  - destruct (Nat.eqb_spec (sid (header p)) (sid_of t)) as [E | _].
    + exfalso. apply N. left. exact E.
    + rewrite IH by tauto. reflexivity.
Qed.

Lemma replace_with_eq a ss x new :
  replace_with (mkStmtList a ss) x new
  = match locate x ss with
    | None => None
    | Some i =>
        Some (mkStmtList a
                (firstn i ss ++ map (set_parent a) new ++ skipn (S i) ss))
    end.
Proof. reflexivity. Qed.

Lemma at_block_here a f ss :
  at_block a f (mkStmtList a ss)
  = match f (mkStmtList a ss) with Some l' => Updated l' | None => Failed end.
Proof. simpl. rewrite Nat.eqb_refl. reflexivity. Qed.

Lemma at_block_deeper a a0 f ss :
  a0 <> a ->
  at_block a f (mkStmtList a0 ss)
  = Deref_map (mkStmtList a0) (search_block (at_block_stmt a f) ss).
Proof.
  intros N. simpl. destruct (Nat.eqb_spec a0 a); [contradiction | reflexivity].
Qed.

Lemma parents_ok_stmt_parent a s :
  parents_ok_stmt a s = true -> parent (header s) = Some a.
Proof.
  intros H.
  assert (match parent (header s) with Some p => p =? a | None => false end
          = true) as H'.
  { destruct s; simpl in H; apply andb_true_iff in H; apply H. }
  destruct (parent (header s)) as [p |]; [| discriminate].
  apply Nat.eqb_eq in H'. congruence.
Qed.

Section Locate.
Variable t : Statement.
Variable new : VecStatement.

Local Abbreviation F := (replace_target t new).
Local Abbreviation located_in_stmt := (located_in_stmt t new).
Local Abbreviation located_in := (located_in t new).
Local Abbreviation locate_stmt_hyp := (locate_stmt_hyp t new).
Local Abbreviation locate_list_hyp := (locate_list_hyp t new).

Lemma locate_in_statements a0 ss :
  Forall locate_stmt_hyp ss ->
  first_of first_high_level_stmt ss = Some t ->
  NoDup (flat_map block_addrs_stmt ss) ->
  NoDup (flat_map (collect idg) ss) ->
  forallb (parents_ok_stmt a0) ss = true ->
  (exists pre post,
      ss = pre ++ t :: post /\ parent (header t) = Some a0 /\
      locate (sid_of t) ss = Some (List.length pre))
  \/
  (exists a pre s s' post,
      ss = pre ++ s :: post /\ parent (header t) = Some a /\
      In a (block_addrs_stmt s) /\
      search_block (at_block_stmt a F) ss = Updated (pre ++ s' :: post) /\
      forall a1 pre0 post0,
        splice t new (mkStmtList a1 (pre0 ++ s :: post0))
                     (mkStmtList a1 (pre0 ++ s' :: post0))).
Proof.
  induction 1 as [| s0 r H0 _ IH]; simpl; [discriminate |].
  intros Hf Na Ni Hp. apply andb_true_iff in Hp. destruct Hp as [Hp0 Hpr].
  destruct (first_high_level_stmt s0) as [x |] eqn:E0.
  - injection Hf as ->.
    destruct (high_level s0) eqn:Hh.
    + left. assert (s0 = t) as ->.
      { destruct s0; try discriminate; simpl in E0; congruence. }
      exists [], r. split; [reflexivity |]. split.
      * apply parents_ok_stmt_parent. exact Hp0.
      * unfold sid_of. rewrite Nat.eqb_refl. reflexivity.
    + right.
      destruct (H0 E0 Hh (NoDup_app_l _ _ Na) (NoDup_app_l _ _ Ni) a0 Hp0)
        as (a & s' & Pa & Ia & Ea & Sp).
      exists a, [], s0, s', r. simpl. rewrite Ea.
      repeat split; assumption.
  - destruct (IH Hf (NoDup_app_r _ _ Na) (NoDup_app_r _ _ Ni) Hpr)
      as [(pre & post & -> & Pa & Lo) | (a & pre & s & s' & post & -> & Pa & Ia & Ea & Sp)].
    + left. exists (s0 :: pre), post. split; [reflexivity |].
      split; [exact Pa |].
      destruct (Nat.eqb_spec (sid (header s0)) (sid_of t)) as [E | _].
      * exfalso. apply (NoDup_app_disjoint _ _ (sid_of t) Ni).
        -- rewrite <- E. apply In_sid_collect.
        -- apply in_flat_map. exists t. split.
           ++ in_middle.
           ++ apply In_sid_collect.
      * rewrite Lo. reflexivity.
    + right. exists a, (s0 :: pre), s, s', post.
      split; [reflexivity |]. split; [exact Pa |]. split; [exact Ia |]. split.
      * rewrite at_block_stmt_dangling.
        -- rewrite Ea. reflexivity.
        -- intros I. apply (NoDup_app_disjoint _ _ a Na I).
           apply in_flat_map. exists s. split; [| exact Ia].
           in_middle.
      * exact Sp.
Qed.

Lemma firstn_skipn_middle {A} (pre post : list A) (x : A) :
  firstn (List.length pre) (pre ++ x :: post) = pre /\
  skipn (S (List.length pre)) (pre ++ x :: post) = post.
Proof.
  split.
  - rewrite firstn_app, Nat.sub_diag, firstn_all. simpl. apply app_nil_r.
  - induction pre; simpl; auto.
Qed.

Lemma locate_first : forall l, locate_list_hyp l.
Proof.
  apply (StmtList_tree_ind locate_stmt_hyp locate_list_hyp);
    try (intros; intros E; simpl in E; discriminate);
    try (intros; intros _ E; simpl in E; discriminate).
  - intros h c tb fb Ht Hf E _ Na Ni a0 Hp. simpl in *.
    apply andb_true_iff in Hp. destruct Hp as [_ Hp].
    apply andb_true_iff in Hp. destruct Hp as [Hpt Hpf].
    inversion Ni as [| ? ? _ Ni']; subst. clear Ni.
    destruct (match tb with Some l => first_high_level l | None => None end)
      as [x |] eqn:Et.
    + injection E as ->. destruct tb as [l |]; [| discriminate].
      destruct (Ht Et (NoDup_app_l _ _ Na) (NoDup_app_l _ _ Ni') Hpt)
        as (a & l' & Pa & Ia & Ea & Sp).
      exists a, (IfStmt h c (Some l') fb). simpl. rewrite Ea.
      repeat split; try assumption.
      * apply in_or_app. left. exact Ia.
      * intros a1 pre post. apply splice_true. exact Sp.
    + destruct fb as [l2 |]; [| discriminate].
      destruct (Hf E (NoDup_app_r _ _ Na) (NoDup_app_r _ _ Ni') Hpf)
        as (a & l' & Pa & Ia & Ea & Sp).
      exists a, (IfStmt h c tb (Some l')). simpl.
      assert (match tb with Some l => at_block a F l | None => Dangling end
              = Dangling) as ->.
      { destruct tb as [l |]; [| reflexivity].
        apply at_block_dangling. intros I.
        exact (NoDup_app_disjoint _ _ a Na I Ia). }
      rewrite Ea. repeat split; try assumption.
      * apply in_or_app. right. exact Ia.
      * intros a1 pre post. apply splice_false. exact Sp.
  - intros h i b e l Hl E _ Na Ni a0 Hp. simpl in *.
    apply andb_true_iff in Hp. destruct Hp as [_ Hp].
    inversion Ni as [| ? ? _ Ni']; subst. clear Ni.
    destruct (Hl E Na Ni' Hp) as (a & l' & Pa & Ia & Ea & Sp).
    exists a, (ForStmt h i b e l'). simpl. rewrite Ea.
    repeat split; try assumption.
    intros a1 pre post. apply splice_for. exact Sp.
  - intros a0 ss H E Na Ni Hp. simpl in *.
    inversion Na as [| ? ? Na0 Na']; subst.
    destruct (locate_in_statements a0 ss H E Na' Ni Hp)
      as [(pre & post & -> & Pa & Lo)
         | (a & pre & s & s' & post & -> & Pa & Ia & Ea & Sp)].
    + exists a0, (mkStmtList a0 (pre ++ map (set_parent a0) new ++ post)).
      split; [exact Pa |]. split; [left; reflexivity |]. split.
      * rewrite at_block_here. unfold F, replace_with.
        unfold statements, addr. rewrite Lo.
        destruct (firstn_skipn_middle pre post t) as [-> ->]. reflexivity.
      * apply splice_here.
    + exists a, (mkStmtList a0 (pre ++ s' :: post)).
      split; [exact Pa |]. split.
      * right. apply in_flat_map. exists s. split; [| exact Ia].
        in_middle.
      * split; [| apply Sp].
        rewrite at_block_deeper.
        -- rewrite Ea. reflexivity.
        -- intros ->. apply Na0. apply in_flat_map. exists s.
           split; [| exact Ia]. in_middle.
Qed.
End Locate.

(** ** Following a parent link, right or wrong *)

Lemma locate_some x ss i :
  locate x ss = Some i ->
  exists pre s post,
    ss = pre ++ s :: post /\ List.length pre = i /\ sid_of s = x.
Proof.
  revert i. induction ss as [| s0 r IH]; simpl; intros i H; [discriminate |].
  destruct (Nat.eqb_spec (sid (header s0)) x) as [E | _].
  - injection H as <-. exists [], s0, r. repeat split. exact E.
  - destruct (locate x r) as [j |]; [| discriminate].
    injection H as <-.
    destruct (IH j eq_refl) as (pre & s & post & -> & <- & E).
    exists (s0 :: pre), s, post. repeat split. exact E.
Qed.

Lemma search_block_updated f ss ss' :
  search_block f ss = Updated ss' ->
  exists pre s s' post,
    ss = pre ++ s :: post /\ ss' = pre ++ s' :: post /\ f s = Updated s'.
Proof.
  revert ss'. induction ss as [| s0 r IH]; simpl; intros ss' H;
    [discriminate |].
  destruct (f s0) as [| | s0'] eqn:E0; [| discriminate |].
  - destruct (search_block f r) as [| | r']; try discriminate.
    injection H as <-.
    destruct (IH r' eq_refl) as (pre & s & s' & post & -> & -> & E).
    exists (s0 :: pre), s, s', post. repeat split. exact E.
  - injection H as <-. exists [], s0, s0', r. repeat split. exact E0.
Qed.

Lemma first_of_split f ss (t : Statement) :
  first_of f ss = Some t ->
  exists pre s post, ss = pre ++ s :: post /\ f s = Some t.
Proof.
  induction ss as [| s0 r IH]; simpl; [discriminate |].
  destruct (f s0) as [x |] eqn:E0.
  - intros H. injection H as ->. exists [], s0, r. split; [reflexivity | exact E0].
  - intros H. destruct (IH H) as (pre & s & post & -> & E).
    exists (s0 :: pre), s, post. split; [reflexivity | exact E].
Qed.

Lemma collect_idg_head s : collect idg s = sid_of s :: tl (collect idg s).
Proof. destruct s; reflexivity. Qed.

Lemma first_high_level_ids t :
  forall l, first_high_level l = Some t -> In (sid_of t) (stmt_ids l).
Proof.
  apply (StmtList_tree_ind
           (fun s => first_high_level_stmt s = Some t ->
                     s = t \/ In (sid_of t) (tl (collect idg s)))
           (fun l => first_high_level l = Some t -> In (sid_of t) (stmt_ids l)));
    try (intros; simpl in *; discriminate);
    try (intros; simpl in *; left; congruence).
  - intros h c tb fb Ht Hf E. right. simpl in *.
    apply in_or_app.
    destruct tb as [l |]; simpl in *.
    + destruct (first_high_level l) as [x |].
      * left. apply Ht. exact E.
      * destruct fb as [l2 |]; [| discriminate]. right. apply Hf. exact E.
    + destruct fb as [l2 |]; [| discriminate]. right. apply Hf. exact E.
  - intros h i b e l Hl E. right. simpl in *. apply Hl. exact E.
  - intros a ss Hs E. unfold stmt_ids. simpl in *.
    destruct (first_of_split _ _ _ E) as (pre & s & post & -> & Es).
    apply Forall_app in Hs. destruct Hs as [_ Hs].
    inversion Hs as [| ? ? Hs0 _]; subst.
    apply in_flat_map. exists s. split.
    + in_middle.
    + rewrite collect_idg_head. destruct (Hs0 Es) as [-> | I].
      * left. reflexivity.
      * right. exact I.
Qed.

Lemma first_high_level_stmt_ids t s :
  first_high_level_stmt s = Some t ->
  s = t \/ In (sid_of t) (tl (collect idg s)).
Proof.
  destruct s; simpl; try discriminate; try (intros; left; congruence).
  - intros E. right. apply in_or_app.
    destruct true_statements as [l |].
    + destruct (first_high_level l) as [x |] eqn:El.
      * left. apply first_high_level_ids. congruence.
      * destruct false_statements as [l2 |]; [| discriminate].
        right. apply first_high_level_ids. exact E.
    + destruct false_statements as [l2 |]; [| discriminate].
      right. apply first_high_level_ids. exact E.
  - intros E. right. apply first_high_level_ids. exact E.
Qed.

Lemma same_position {X} (g : Statement -> list X) x :
  forall pre s post pre' s' post',
    NoDup (flat_map g (pre ++ s :: post)) ->
    pre ++ s :: post = pre' ++ s' :: post' ->
    In x (g s) -> In x (g s') ->
    pre = pre' /\ s = s' /\ post = post'.
Proof.
  induction pre as [| p r IH]; intros s post [| p' r'] s' post' N E I I';
    simpl in *.
  - injection E as -> ->. auto.
  - injection E as -> ->. exfalso.
    apply (NoDup_app_disjoint _ _ x N I).
    apply in_flat_map. exists s'. split; [| exact I'].
    in_middle.
  - injection E as -> <-. exfalso.
    apply (NoDup_app_disjoint _ _ x N I').
    apply in_flat_map. exists s. split; [| exact I].
    in_middle.
  - injection E as -> E.
    destruct (IH s post r' s' post' (NoDup_app_r _ _ N) E I I')
      as (-> & -> & ->).
    auto.
Qed.

Section Replaced.
Variable t : Statement.
Variable new : VecStatement.

Local Abbreviation F := (replace_target t new).

Lemma replaced_in_statements ss :
  NoDup (flat_map (collect idg) ss) ->
  forall pre s post,
    ss = pre ++ s :: post ->
    In (sid_of t) (collect idg s) ->
    first_of first_high_level_stmt ss = Some t ->
    first_high_level_stmt s = Some t.
Proof.
  intros N pre s post E I Ft.
  destruct (first_of_split _ _ _ Ft) as (pre' & s' & post' & E' & Es').
  assert (In (sid_of t) (collect idg s')) as I'.
  { rewrite collect_idg_head.
    destruct (first_high_level_stmt_ids t s' Es') as [-> | J];
      [left; reflexivity | right; exact J]. }
  rewrite E in N, E'.
  destruct (same_position (collect idg) (sid_of t) _ _ _ _ _ _ N E' I I')
    as (_ & -> & _).
  exact Es'.
Qed.

Lemma replaced_anywhere : forall l, replaced_in t new l.
Proof.
  apply (StmtList_tree_ind (replaced_in_stmt t new) (replaced_in t new));
    try (unfold replaced_in_stmt; intros; simpl in *; discriminate).
  - intros h c tb fb Ht Hf N a s' E. simpl in *.
    inversion N as [| ? ? _ N']; subst. clear N.
    destruct tb as [l |]; simpl in Ht.
    + destruct (at_block a F l) as [| | l'] eqn:El.
      * destruct fb as [l2 |]; simpl in *; [| discriminate].
        destruct (at_block a F l2) as [| | l2'] eqn:El2; try discriminate.
        injection E as <-.
        destruct (Hf (NoDup_app_r _ _ N') a l2' El2) as [I Sp].
        split; [apply in_or_app; right; exact I |].
        intros Ft a1 pre post. apply splice_false. apply Sp.
        destruct (first_high_level l) as [x |] eqn:Fl; [| exact Ft].
        injection Ft as ->. exfalso.
        apply (NoDup_app_disjoint _ _ (sid_of t) N'
                 (first_high_level_ids t l Fl) I).
      * discriminate.
      * injection E as <-.
        destruct (Ht (NoDup_app_l _ _ N') a l' El) as [I Sp].
        split; [apply in_or_app; left; exact I |].
        intros Ft a1 pre post. apply splice_true. apply Sp.
        destruct (first_high_level l) as [x |] eqn:Fl; [exact Ft |].
        destruct fb as [l2 |]; [| discriminate]. exfalso.
        apply (NoDup_app_disjoint _ _ (sid_of t) N' I
                 (first_high_level_ids t l2 Ft)).
    + destruct fb as [l2 |]; simpl in *; [| discriminate].
      destruct (at_block a F l2) as [| | l2'] eqn:El2; try discriminate.
      injection E as <-.
      destruct (Hf N' a l2' El2) as [I Sp].
      split; [exact I |].
      intros Ft a1 pre post. apply splice_false. apply Sp. exact Ft.
  - intros h i b e l Hl N a s' E. simpl in *.
    inversion N as [| ? ? _ N']; subst. clear N.
    destruct (at_block a F l) as [| | l'] eqn:El; try discriminate.
    injection E as <-.
    destruct (Hl N' a l' El) as [I Sp].
    split; [exact I |].
    intros Ft a1 pre post. apply splice_for. apply Sp. exact Ft.
  - intros a0 ss Hs N a r E. unfold stmt_ids in *. simpl in N.
    destruct (Nat.eq_dec a0 a) as [-> | Ne].
    + rewrite at_block_here in E. unfold replace_target in E.
      rewrite replace_with_eq in E.
      destruct (locate (sid_of t) ss) as [i |] eqn:Lo; [| discriminate].
      assert (r = mkStmtList a
                    (firstn i ss ++ map (set_parent a) new ++ skipn (S i) ss))
        as -> by congruence.
      clear E.
      destruct (locate_some _ _ _ Lo) as (pre & s & post & -> & <- & Es).
      destruct (firstn_skipn_middle pre post s) as [-> ->].
      assert (In (sid_of t) (collect idg s)) as I.
      { rewrite collect_idg_head, Es. left. reflexivity. }
      split.
      * simpl. apply in_flat_map. exists s. split; [| exact I].
        in_middle.
      * intros Ft. simpl in Ft.
        pose proof (replaced_in_statements _ N pre s post eq_refl I Ft) as Fs.
        destruct (first_high_level_stmt_ids t s Fs) as [-> | J].
        -- apply splice_here.
        -- exfalso. rewrite flat_map_app in N. apply NoDup_app_r in N.
           simpl in N. apply NoDup_app_l in N.
           rewrite collect_idg_head, Es in N.
           inversion N. contradiction.
    + rewrite at_block_deeper in E by exact Ne.
      destruct (search_block (at_block_stmt a F) ss) as [| | ss'] eqn:Se;
        try discriminate.
      injection E as <-.
      destruct (search_block_updated _ _ _ Se)
        as (pre & s & s' & post & -> & -> & Es).
      apply Forall_app in Hs. destruct Hs as [_ Hs].
      inversion Hs as [| ? ? Hs0 _]; subst.
      assert (NoDup (collect idg s)) as Ns.
      { rewrite flat_map_app in N. apply NoDup_app_r in N.
        simpl in N. apply NoDup_app_l in N. exact N. }
      destruct (Hs0 Ns a s' Es) as [I Sp].
      assert (In (sid_of t) (collect idg s)) as I'.
      { rewrite collect_idg_head. right. exact I. }
      split.
      * simpl. apply in_flat_map. exists s. split; [| exact I'].
        in_middle.
      * intros Ft. simpl in Ft. apply Sp.
        exact (replaced_in_statements _ N pre s post eq_refl I' Ft).
Qed.
End Replaced.

(** ** What a splice changes and what it keeps *)

Lemma collect_leaf {X} (g : Statement -> list X) s :
  leaf s = true -> collect g s = g s.
Proof. destruct s; try discriminate; intros _; simpl; apply app_nil_r. Qed.

Lemma leaf_set_parent a s : leaf (set_parent a s) = leaf s.
Proof. destruct s; reflexivity. Qed.

Lemma collect_new {X} (g : Statement -> list X) a new :
  local g -> Forall (fun s => leaf s = true) new ->
  flat_map (collect g) (map (set_parent a) new) = flat_map g new.
Proof.
  intros (_ & _ & Hp). induction 1 as [| s r Hs _ IH]; simpl; [reflexivity |].
  rewrite IH, collect_leaf, Hp; [reflexivity |].
  rewrite leaf_set_parent. exact Hs.
Qed.

Lemma splice_collect {X} (g : Statement -> list X) t new l l' :
  local g -> leaf t = true -> Forall (fun s => leaf s = true) new ->
  splice t new l l' ->
  exists l1 l2,
    collect_list g l = l1 ++ g t ++ l2 /\
    collect_list g l' = l1 ++ flat_map g new ++ l2.
Proof.
  intros Hg Ht Hn. induction 1 as
      [a pre post
      | a pre post h c l l' f _ (l1 & l2 & E & E')
      | a pre post h c o l l' _ (l1 & l2 & E & E')
      | a pre post h i b e l l' _ (l1 & l2 & E & E')]; simpl.
  - exists (flat_map (collect g) pre), (flat_map (collect g) post).
    rewrite !flat_map_app. simpl.
    rewrite collect_leaf, collect_new by assumption. split; reflexivity.
  - exists (flat_map (collect g) pre ++ g (IfStmt h c (Some l) f) ++ l1),
      (l2 ++ match f with Some l0 => collect_list g l0 | None => [] end
          ++ flat_map (collect g) post).
    rewrite !flat_map_app. simpl. rewrite E, E'.
    rewrite (proj1 Hg h c (Some l') f (Some l) f).
    rewrite <- !app_assoc. split; reflexivity.
  - exists (flat_map (collect g) pre ++ g (IfStmt h c o (Some l))
              ++ match o with Some l0 => collect_list g l0 | None => [] end
              ++ l1),
      (l2 ++ flat_map (collect g) post).
    rewrite !flat_map_app. simpl. rewrite E, E'.
    rewrite (proj1 Hg h c o (Some l') o (Some l)).
    rewrite <- !app_assoc. split; reflexivity.
  - exists (flat_map (collect g) pre ++ g (ForStmt h i b e l) ++ l1),
      (l2 ++ flat_map (collect g) post).
    rewrite !flat_map_app. simpl. rewrite E, E'.
    rewrite (proj1 (proj2 Hg) h i b e l' l).
    rewrite <- !app_assoc. split; reflexivity.
Qed.

Lemma block_addrs_leaf s : leaf s = true -> block_addrs_stmt s = [].
Proof. destruct s; try discriminate; reflexivity. Qed.

Lemma block_addrs_new a new :
  Forall (fun s => leaf s = true) new ->
  flat_map block_addrs_stmt (map (set_parent a) new) = [].
Proof.
  induction 1 as [| s r Hs _ IH]; simpl; [reflexivity |].
  rewrite IH, block_addrs_leaf; [reflexivity |].
  rewrite leaf_set_parent. exact Hs.
Qed.

Lemma splice_block_addrs t new l l' :
  leaf t = true -> Forall (fun s => leaf s = true) new ->
  splice t new l l' -> block_addrs l' = block_addrs l.
Proof.
  intros Ht Hn. induction 1; simpl; f_equal; rewrite !flat_map_app; simpl.
  - rewrite block_addrs_new, block_addrs_leaf by assumption. reflexivity.
  - rewrite IHsplice. reflexivity.
  - rewrite IHsplice. reflexivity.
  - rewrite IHsplice. reflexivity.
Qed.

Lemma parents_ok_new a new :
  Forall (fun s => leaf s = true) new ->
  forallb (parents_ok_stmt a) (map (set_parent a) new) = true.
Proof.
  induction 1 as [| s r Hs _ IH]; simpl; [reflexivity |].
  rewrite IH, andb_true_r.
  destruct s; try discriminate; simpl; rewrite Nat.eqb_refl; reflexivity.
Qed.

Lemma splice_parents_ok t new l l' :
  Forall (fun s => leaf s = true) new ->
  splice t new l l' -> parents_ok l = true -> parents_ok l' = true.
Proof.
  intros Hn. induction 1; simpl; rewrite !forallb_app; simpl;
    rewrite ?forallb_app, !andb_true_iff; intros H0; intuition.
  apply parents_ok_new. exact Hn.
Qed.

Lemma local_idg : local idg.
Proof. repeat split; intros; try reflexivity. destruct s; reflexivity. Qed.

Lemma local_own_exprs : local own_exprs.
Proof. repeat split; intros; try reflexivity. destruct s; reflexivity. Qed.

Lemma local_only_high_level : local (only high_level).
Proof. repeat split; intros; try reflexivity. destruct s; reflexivity. Qed.

Lemma plain_leaves new :
  Forall plain new -> Forall (fun s => leaf s = true) new.
Proof. apply Forall_impl. intros s [H _]. exact H. Qed.

Lemma plain_not_high new :
  Forall plain new -> flat_map (only high_level) new = [].
Proof.
  induction 1 as [| s r [_ Hs] _ IH]; simpl; [reflexivity |].
  unfold only at 1. rewrite Hs, IH. reflexivity.
Qed.

Lemma flat_map_idg new : flat_map idg new = map sid_of new.
Proof. induction new; simpl; congruence. Qed.

Lemma high_level_leaf t : high_level t = true -> leaf t = true.
Proof. destruct t; try discriminate; reflexivity. Qed.

(** A rewrite removes one high-level statement and adds none. *)
Lemma splice_count t new l l' :
  high_level t = true -> Forall plain new -> splice t new l l' ->
  count high_level l = S (count high_level l').
Proof.
  intros Ht Hn Sp.
  destruct (splice_collect (only high_level) t new l l' local_only_high_level
              (high_level_leaf t Ht) (plain_leaves new Hn) Sp)
    as (l1 & l2 & E & E').
  unfold count. rewrite E, E', plain_not_high by exact Hn.
  unfold only. rewrite Ht, !length_app. simpl. lia.
Qed.

(** A rewrite leaves the conditions and the loop bounds as they are. *)
Lemma splice_control_exprs t new l l' :
  high_level t = true -> Forall plain new -> splice t new l l' ->
  control_exprs l' = control_exprs l.
Proof.
  intros Ht Hn Sp.
  destruct (splice_collect own_exprs t new l l' local_own_exprs
              (high_level_leaf t Ht) (plain_leaves new Hn) Sp)
    as (l1 & l2 & E & E').
  unfold control_exprs. rewrite E, E'.
  assert (flat_map own_exprs new = []) as ->.
  { clear -Hn. induction Hn as [| s r [Hs _] _ IH]; simpl; [reflexivity |].
    rewrite IH. destruct s; try discriminate; reflexivity. }
  assert (own_exprs t = []) as ->.
  { destruct t; try discriminate; reflexivity. }
  reflexivity.
Qed.

Lemma NoDup_replace (l1 l2 m : list nat) (x : nat) :
  NoDup (l1 ++ x :: l2) -> NoDup m ->
  (forall y, In y m -> ~ In y (l1 ++ l2)) ->
  NoDup (l1 ++ m ++ l2).
Proof.
  intros N Nm D. apply NoDup_remove_1 in N.
  apply NoDup_app.
  - exact (NoDup_app_l _ _ N).
  - apply NoDup_app; [exact Nm | exact (NoDup_app_r _ _ N) |].
    intros y Iy I2. apply (D y Iy). apply in_or_app. right. exact I2.
  - intros y I1 I. apply in_app_or in I. destruct I as [Im | I2].
    + apply (D y Im). apply in_or_app. left. exact I1.
    + exact (NoDup_app_disjoint _ _ y N I1 I2).
Qed.

(** A rewrite keeps the heap a heap. *)
Lemma splice_heap_ok t new c r' :
  heap_ok c = true -> high_level t = true ->
  emitted (id_counter c) new -> splice t new (root c) r' ->
  heap_ok (mkContext r' (id_counter c + List.length new)) = true.
Proof.
  unfold heap_ok. rewrite !andb_true_iff. simpl.
  intros [Hi Hb] Ht (_ & Hs & Hn) Sp.
  pose proof (high_level_leaf t Ht) as Hl.
  pose proof (plain_leaves new Hn) as Hln.
  destruct (splice_collect idg t new _ _ local_idg Hl Hln Sp)
    as (l1 & l2 & E & E').
  unfold stmt_ids in *.
  rewrite flat_map_idg, Hs in E'. simpl in E.
  rewrite forallb_forall in Hb.
  assert (forall y, In y (l1 ++ l2) -> y < id_counter c) as Old.
  { intros y I. apply Nat.ltb_lt, Hb. rewrite E.
    apply in_app_or in I. apply in_or_app. simpl. tauto. }
  split.
  - rewrite E'. apply distinct_NoDup. apply distinct_NoDup in Hi.
    rewrite E in Hi. apply (NoDup_replace _ _ _ (sid_of t) Hi).
    + apply seq_NoDup.
    + intros y Iy I. apply in_seq in Iy. apply Old in I. lia.
  - rewrite E'. apply forallb_forall. intros y I. apply Nat.ltb_lt.
    apply in_app_or in I. destruct I as [I | I].
    + assert (y < id_counter c) by (apply Old, in_or_app; tauto). lia.
    + apply in_app_or in I. destruct I as [I | I].
      * apply in_seq in I. lia.
      * assert (y < id_counter c) by (apply Old, in_or_app; tauto). lia.
Qed.

(** A rewrite keeps the state well formed. *)
Lemma splice_well_formed t new c r' :
  well_formed c = true -> high_level t = true ->
  emitted (id_counter c) new -> splice t new (root c) r' ->
  well_formed (mkContext r' (id_counter c + List.length new)) = true.
Proof.
  unfold well_formed. rewrite !andb_true_iff. simpl.
  intros [[Hh Ha] Hp] Ht Em Sp.
  pose proof (high_level_leaf t Ht) as Hl.
  pose proof (plain_leaves new (proj2 (proj2 Em))) as Hln.
  repeat split.
  - exact (splice_heap_ok t new c r' Hh Ht Em Sp).
  - rewrite (splice_block_addrs t new _ _ Hl Hln Sp). exact Ha.
  - exact (splice_parents_ok t new _ _ Hln Sp Hp).
Qed.

(** ** One traversal *)

Lemma well_formed_facts c :
  well_formed c = true ->
  NoDup (block_addrs (root c)) /\ NoDup (stmt_ids (root c)) /\
  parents_ok (root c) = true.
Proof.
  unfold well_formed, heap_ok. rewrite !andb_true_iff, !distinct_NoDup.
  tauto.
Qed.

Lemma rewrite_step c t e mk :
  well_formed c = true -> first_high_level (root c) = Some t ->
  (forall v h, header (mk v h) = h /\ plain (mk v h)) ->
  (forall c0, LowerAST_visit t c0 = rewrite_body t e mk c0) ->
  exists out last r',
    flatten e [] c
      = Return out (mkContext (root c) (id_counter c + List.length out))
    /\ back out = Some last
    /\ LowerAST_visit_StmtList (root c) c
       = Throw (mkContext r' (S (id_counter c + List.length out)))
    /\ splice t (out ++ [mk (sid_of last)
                            (fresh (id_counter c + List.length out))])
              (root c) r'
    /\ emitted (id_counter c)
         (out ++ [mk (sid_of last) (fresh (id_counter c + List.length out))]).
Proof.
  intros W Ft Hmk Hv.
  pose proof (traversal_stops_at_first (root c) c) as T. rewrite Ft in T.
  destruct T as [_ T].
  destruct (rewrite_body_spec t e mk c Hmk) as (out & last & Ef & Eb & Em & Er).
  destruct (well_formed_facts c W) as (Na & Ni & Hp).
  destruct (locate_first t
              (out ++ [mk (sid_of last) (fresh (id_counter c + List.length out))])
              (root c) Ft Na Ni Hp)
    as (a & l' & Pa & _ & Ea & Sp).
  exists out, last, l'. split; [exact Ef |]. split; [exact Eb |].
  split; [| split; [exact Sp | exact Em]].
  unfold replace_target in Ea. rewrite T, Hv, Er, Pa, Ea. reflexivity.
Qed.

(** What one traversal of a well-formed tree with a high-level statement
    left does. *)
Lemma traversal_rewrites c t :
  well_formed c = true -> first_high_level (root c) = Some t ->
  exists c',
    LowerAST_visit_StmtList (root c) c = Throw c' /\
    well_formed c' = true /\
    count high_level (root c) = S (count high_level (root c')) /\
    control_exprs (root c') = control_exprs (root c).
Proof.
  intros W Ft.
  pose proof (traversal_stops_at_first (root c) c) as T. rewrite Ft in T.
  destruct T as [Ht _].
  assert (exists e mk,
             (forall v h, header (mk v h) = h /\ plain (mk v h)) /\
             (forall c0, LowerAST_visit t c0 = rewrite_body t e mk c0))
    as (e & mk & Hmk & Hv).
  { destruct t; try discriminate.
    - exists rhs, (fun v h => LocalStoreStmt h id v).
      split; [apply mk_store_ok | reflexivity].
    - exists expr, (fun v h => PrintStmt h v).
      split; [apply mk_print_ok | reflexivity]. }
  destruct (rewrite_step c t e mk W Ft Hmk Hv)
    as (out & last & r' & _ & _ & Et & Sp & Em).
  exists (mkContext r' (S (id_counter c + List.length out))).
  split; [exact Et |]. split; [| split].
  - pose proof (splice_well_formed t _ c r' W Ht Em Sp) as W'.
    rewrite length_app in W'. simpl in W'.
    replace (id_counter c + (List.length out + 1))
      with (S (id_counter c + List.length out)) in W' by lia.
    exact W'.
  - exact (splice_count t _ _ _ Ht (proj2 (proj2 Em)) Sp).
  - exact (splice_control_exprs t _ _ _ Ht (proj2 (proj2 Em)) Sp).
Qed.

Lemma first_high_level_count :
  forall l, first_high_level l = None <-> count high_level l = 0.
Proof.
  unfold count.
  assert (forall l, first_high_level l = None
                    <-> collect_list (only high_level) l = []) as H.
  { apply (StmtList_tree_ind
             (fun s => first_high_level_stmt s = None
                       <-> collect (only high_level) s = [])
             (fun l => first_high_level l = None
                       <-> collect_list (only high_level) l = []));
      try (intros; simpl; split; (reflexivity || discriminate)).
    - intros h c t f Ht Hf. simpl.
      destruct t as [l |], f as [l2 |]; simpl in *.
      + destruct (first_high_level l).
        * split; [discriminate |]. intros E. apply app_eq_nil in E.
          apply Ht. apply E.
        * rewrite (proj1 Ht eq_refl). exact Hf.
      + rewrite app_nil_r. destruct (first_high_level l).
        * split; [discriminate |]. intros E. apply Ht. exact E.
        * tauto.
      + exact Hf.
      + tauto.
    - intros h i b e l Hl. simpl. exact Hl.
    - intros a ss Hs. simpl.
      induction Hs as [| s r Hs _ IH]; simpl; [tauto |].
      destruct (first_high_level_stmt s).
      + split; [discriminate |]. intros E. apply app_eq_nil in E.
        apply Hs. apply E.
      + rewrite (proj1 Hs eq_refl). exact IH. }
  intros l. rewrite H. split.
  - intros ->. reflexivity.
  - apply length_zero_iff_nil.
Qed.

Lemma traversal_completes c :
  count high_level (root c) = 0 ->
  LowerAST_visit_StmtList (root c) c = Return tt c.
Proof.
  intros H. apply first_high_level_count in H.
  pose proof (traversal_stops_at_first (root c) c) as T.
  rewrite H in T. exact T.
Qed.

(** ** The printer *)

Arguments bind : simpl never.

Lemma bind_Return {S A B} (m : M S A) (k : A -> M S B) s a s' :
  m s = Return a s' -> bind m k s = k a s'.
Proof. intros E. unfold bind. rewrite E. reflexivity. Qed.

Lemma print_at d p text :
  current_indent p = Z.of_nat d ->
  print text p
  = Return tt (mkIRPrinter (current_indent p) (output p ++ [line d text])).
Proof.
  intros E. unfold print, line, indentation. rewrite E, Nat2Z.id. reflexivity.
Qed.

Section PrinterFormat.
Variable type_hint : Statement -> string.
Variable name : StmtRef -> string.
Variable serialize : Expr -> string.
Variable binary_type_name : BinaryType -> string.
Variable format_value : Z -> string.

Local Abbreviation prints_stmt :=
  (prints_stmt type_hint name serialize binary_type_name format_value).
Local Abbreviation prints_block :=
  (prints_block type_hint name serialize binary_type_name format_value).
Local Abbreviation visit_stmt :=
  (IRPrinter_visit type_hint name serialize binary_type_name format_value).
Local Abbreviation visit_list :=
  (IRPrinter_visit_StmtList type_hint name serialize binary_type_name
     format_value).
Local Abbreviation fmt_stmt :=
  (format_stmt type_hint name serialize binary_type_name format_value).
Local Abbreviation fmt_block :=
  (format_block type_hint name serialize binary_type_name format_value).

Lemma prints_for_each ss :
  Forall prints_stmt ss ->
  forall d p, current_indent p = Z.of_nat d ->
    for_each visit_stmt ss p
    = Return tt (mkIRPrinter (current_indent p)
                   (output p ++ flat_map (fmt_stmt d) ss)).
Proof.
  induction 1 as [| s r Hs _ IH]; intros d p E; simpl.
  - rewrite app_nil_r. destruct p; reflexivity.
  - rewrite (bind_Return _ _ _ _ _ (Hs d p E)).
    rewrite (IH d (mkIRPrinter (current_indent p) (output p ++ fmt_stmt d s)) E).
    simpl. rewrite app_assoc. reflexivity.
Qed.

Lemma printer_refines_format : forall l, prints_block l.
Proof.
  apply (StmtList_tree_ind prints_stmt prints_block);
    try (intros; intros d p E; simpl; apply print_at; exact E).
  - intros h c t f Ht Hf d p E. simpl.
    rewrite (bind_Return _ _ _ _ _ (print_at d p _ E)).
    set (p1 := mkIRPrinter _ _).
    assert (current_indent p1 = Z.of_nat d) as E1 by exact E.
    assert (exists o1,
               match t with
               | Some l => visit_list l
               | None => ret tt
               end p1 = Return tt (mkIRPrinter (current_indent p) o1)
               /\ o1 = output p1
                         ++ match t with
                            | Some l => fmt_block (S d) l
                            | None => []
                            end) as (o1 & R1 & ->).
    { destruct t as [l |]; simpl in Ht.
      - eexists. split; [apply (Ht (S d) p1); rewrite E1; lia | reflexivity].
      - eexists. split; [reflexivity |]. rewrite app_nil_r. reflexivity. }
    rewrite (bind_Return _ _ _ _ _ R1).
    set (p2 := mkIRPrinter _ _).
    assert (current_indent p2 = Z.of_nat d) as E2 by exact E.
    destruct f as [l |]; simpl in Hf.
    + assert ((print "} else {" ;;; visit_list l) p2
              = Return tt (mkIRPrinter (current_indent p)
                             ((output p2 ++ [line d "} else {"])
                                ++ fmt_block (S d) l))) as R2.
      { rewrite (bind_Return _ _ _ _ _ (print_at d p2 _ E2)).
        rewrite (Hf (S d)); [reflexivity |]. simpl. rewrite E. lia. }
      rewrite (bind_Return _ _ _ _ _ R2).
      rewrite (print_at d) by exact E. simpl. f_equal. f_equal.
      rewrite <- !app_assoc. reflexivity.
    + unfold bind at 1, ret at 1.
      rewrite (print_at d) by exact E. simpl. f_equal. f_equal.
      rewrite <- !app_assoc. reflexivity.
  - intros h i b e l Hl d p E. simpl.
    rewrite (bind_Return _ _ _ _ _ (print_at d p _ E)).
    set (p1 := mkIRPrinter _ _).
    assert ((current_indent p1 + 1)%Z = Z.of_nat (S d)) as E1.
    { simpl. rewrite E. lia. }
    rewrite (bind_Return _ _ _ _ _ (Hl (S d) p1 E1)).
    rewrite (print_at d) by exact E. simpl. f_equal. f_equal.
    rewrite <- !app_assoc. reflexivity.
  - intros a ss H d p E. simpl.
    unfold bind at 1, indent_by at 1.
    rewrite (bind_Return _ _ _ _ _
               (prints_for_each ss H d
                  (mkIRPrinter (current_indent p + 1) (output p)) E)).
    unfold indent_by. simpl. f_equal. f_equal. lia.
Qed.
End PrinterFormat.

(** ** The restart loop *)

Lemma count_none_of (p q : Statement -> bool) :
  (forall s, p s = true -> q s = true) ->
  forall l, count q l = 0 -> count p l = 0.
Proof.
  intros Hpq. unfold count.
  assert (forall s, only q s = [] -> only p s = []) as Ho.
  { intros s. unfold only. destruct (p s) eqn:Ep; [| reflexivity].
    rewrite (Hpq s Ep). discriminate. }
  assert (forall l, collect_list (only q) l = [] ->
                    collect_list (only p) l = []) as H.
  { apply (StmtList_tree_ind
             (fun s => collect (only q) s = [] -> collect (only p) s = [])
             (fun l => collect_list (only q) l = [] ->
                       collect_list (only p) l = []));
      try (intros; rewrite collect_leaf in * by reflexivity; auto; fail).
    - intros h c t f Ht Hf E. simpl in *.
      apply app_eq_nil in E. destruct E as [E1 E2].
      apply app_eq_nil in E2. destruct E2 as [E2 E3].
      rewrite (Ho _ E1). simpl.
      destruct t as [l |], f as [l2 |]; simpl in *;
        rewrite ?Ht, ?Hf; auto.
    - intros h i b e l Hl E. simpl in *.
      apply app_eq_nil in E. destruct E as [E1 E2].
      rewrite (Ho _ E1). simpl. auto.
    - intros a ss Hs E. simpl in *.
      induction Hs as [| s r Hs _ IH]; simpl in *; [reflexivity |].
      apply app_eq_nil in E. destruct E as [E1 E2].
      rewrite Hs, IH; auto. }
  intros l E. apply length_zero_iff_nil in E. rewrite (H l E). reflexivity.
Qed.

(** The same step on any heap: when the parent link is wrong the traversal
    stops in the fatal error, and when it does not stop it has replaced the
    statement it came to. *)
Lemma rewrite_step_any c t e mk :
  heap_ok c = true -> first_high_level (root c) = Some t ->
  (forall v h, header (mk v h) = h /\ plain (mk v h)) ->
  (forall c0, LowerAST_visit t c0 = rewrite_body t e mk c0) ->
  LowerAST_visit_StmtList (root c) c = Abort
  \/
  exists new r',
    LowerAST_visit_StmtList (root c) c
    = Throw (mkContext r' (id_counter c + List.length new))
    /\ splice t new (root c) r'
    /\ emitted (id_counter c) new.
Proof.
  intros H Ft Hmk Hv.
  pose proof (traversal_stops_at_first (root c) c) as T. rewrite Ft in T.
  destruct T as [_ T].
  destruct (rewrite_body_spec t e mk c Hmk) as (out & last & _ & _ & Em & Er).
  rewrite T, Hv, Er.
  destruct (parent (header t)) as [a |]; [| left; reflexivity].
  set (new := out ++ _) in *.
  destruct (at_block a _ (root c)) as [| | r] eqn:Ea;
    [left; reflexivity | left; reflexivity | right].
  assert (NoDup (stmt_ids (root c))) as N.
  { unfold heap_ok in H. apply andb_true_iff in H.
    apply distinct_NoDup, H. }
  exists new, r. split; [| split; [| exact Em]].
  - f_equal. f_equal. unfold new. rewrite length_app. simpl. lia.
  - exact (proj2 (replaced_anywhere t new (root c) N a r Ea) Ft).
Qed.

Lemma traversal_outcome_any c :
  heap_ok c = true ->
  (count high_level (root c) = 0 /\
   LowerAST_visit_StmtList (root c) c = Return tt c)
  \/
  (exists c',
      LowerAST_visit_StmtList (root c) c = Throw c' /\
      heap_ok c' = true /\
      count high_level (root c) = S (count high_level (root c')) /\
      control_exprs (root c') = control_exprs (root c))
  \/
  LowerAST_visit_StmtList (root c) c = Abort.
Proof.
  intros H. destruct (first_high_level (root c)) as [t |] eqn:Ft.
  - right.
    pose proof (traversal_stops_at_first (root c) c) as T. rewrite Ft in T.
    destruct T as [Ht _].
    assert (exists e mk,
               (forall v h, header (mk v h) = h /\ plain (mk v h)) /\
               (forall c0, LowerAST_visit t c0 = rewrite_body t e mk c0))
      as (e & mk & Hmk & Hv).
    { destruct t; try discriminate.
      - exists rhs, (fun v h => LocalStoreStmt h id v).
        split; [apply mk_store_ok | reflexivity].
      - exists expr, (fun v h => PrintStmt h v).
        split; [apply mk_print_ok | reflexivity]. }
    destruct (rewrite_step_any c t e mk H Ft Hmk Hv)
      as [Ea | (new & r' & Et & Sp & Em)]; [right; exact Ea | left].
    exists (mkContext r' (id_counter c + List.length new)).
    split; [exact Et |]. split; [| split].
    + exact (splice_heap_ok t new c r' H Ht Em Sp).
    + exact (splice_count t _ _ _ Ht (proj2 (proj2 Em)) Sp).
    + exact (splice_control_exprs t _ _ _ Ht (proj2 (proj2 Em)) Sp).
  - left. apply first_high_level_count in Ft. split; [exact Ft |].
    exact (traversal_completes c Ft).
Qed.

Lemma traversal_outcome c :
  well_formed c = true ->
  (count high_level (root c) = 0 /\
   LowerAST_visit_StmtList (root c) c = Return tt c)
  \/
  (exists c',
      LowerAST_visit_StmtList (root c) c = Throw c' /\
      well_formed c' = true /\
      count high_level (root c) = S (count high_level (root c')) /\
      control_exprs (root c') = control_exprs (root c)).
Proof.
  intros W. destruct (first_high_level (root c)) as [t |] eqn:Ft.
  - right. exact (traversal_rewrites c t W Ft).
  - left. apply first_high_level_count in Ft. split; [exact Ft |].
    exact (traversal_completes c Ft).
Qed.

Lemma LowerAST_run_S fuel c :
  LowerAST_run (S fuel) c
  = match LowerAST_visit_StmtList (root c) c with
    | Return _ c' => Some (Return tt c')
    | Throw c' => LowerAST_run fuel c'
    | Abort => Some Abort
    end.
Proof.
  simpl. unfold try_catch, bind, ret.
  destruct (LowerAST_visit_StmtList (root c) c); reflexivity.
Qed.

Lemma run_reaches_fixed_point n :
  forall c, well_formed c = true -> count high_level (root c) = n ->
  exists c',
    (forall fuel, n < fuel -> LowerAST_run fuel c = Some (Return tt c')) /\
    count high_level (root c') = 0.
Proof.
  induction n as [| n IH]; intros c W Hn.
  - exists c. split; [| exact Hn].
    intros [| fuel] Hf; [lia |]. rewrite LowerAST_run_S.
    rewrite (traversal_completes c Hn). reflexivity.
  - destruct (traversal_outcome c W) as [[Z _] | (c1 & Et & W1 & Hc & _)];
      [congruence |].
    destruct (IH c1 W1) as (c' & Hrun & Hz); [congruence |].
    exists c'. split; [| exact Hz].
    intros [| fuel] Hf; [lia |]. rewrite LowerAST_run_S, Et. apply Hrun. lia.
Qed.

Lemma run_terminates_any n :
  forall c, heap_ok c = true -> count high_level (root c) = n ->
  exists r,
    (forall fuel, n < fuel -> LowerAST_run fuel c = Some r) /\
    match r with
    | Return _ c' => count high_level (root c') = 0
    | Throw _ => False
    | Abort => True
    end.
Proof.
  induction n as [| n IH]; intros c H Hn.
  - exists (Return tt c). split; [| exact Hn].
    intros [| fuel] Hf; [lia |]. rewrite LowerAST_run_S.
    rewrite (traversal_completes c Hn). reflexivity.
  - destruct (traversal_outcome_any c H)
      as [[Z _] | [(c1 & Et & H1 & Hc & _) | Ea]]; [congruence | |].
    + destruct (IH c1 H1) as (r & Hrun & Hr); [congruence |].
      exists r. split; [| exact Hr].
      intros [| fuel] Hf; [lia |]. rewrite LowerAST_run_S, Et. apply Hrun. lia.
    + exists Abort. split; [| exact I].
      intros [| fuel] Hf; [lia |]. rewrite LowerAST_run_S, Ea. reflexivity.
Qed.

(** C1. [LowerAST::run] terminates on every tree: the loop makes at most
    one traversal more than there are high-level statements at the start.
    When it returns, the tree has no [AssignStmt] and no
    [FrontendPrintStmt]; it returns on every well-formed tree, and on
    another one it can only stop in the fatal error.  The reason for
    termination is that a traversal that throws has removed exactly one
    high-level statement and added none.  ([heap_ok] says what is true of
    any heap: distinct statements have distinct identities.) *)
Theorem LowerAST_run_terminates (c : Context) :
  heap_ok c = true ->
  (exists r,
      (forall fuel, count high_level (root c) < fuel ->
                    LowerAST_run fuel c = Some r) /\
      match r with
      | Return _ c' =>
          count is_AssignStmt (root c') = 0 /\
          count is_FrontendPrintStmt (root c') = 0
      | Throw _ => False
      | Abort => well_formed c = false
      end)
  /\
  (forall c1, LowerAST_visit_StmtList (root c) c = Throw c1 ->
              count high_level (root c) = S (count high_level (root c1))).
Proof.
  intros H. split.
  - destruct (run_terminates_any _ c H eq_refl) as (r & Hrun & Hr).
    exists r. split; [exact Hrun |].
    destruct r as [u c' | c' |]; [| exact Hr |].
    + split.
      * apply (count_none_of is_AssignStmt high_level); [| exact Hr].
        intros x E. unfold high_level. rewrite E. reflexivity.
      * apply (count_none_of is_FrontendPrintStmt high_level); [| exact Hr].
        intros x E. unfold high_level. rewrite E. apply orb_true_r.
    + destruct (well_formed c) eqn:W; [| reflexivity].
      destruct (run_reaches_fixed_point _ c W eq_refl) as (c' & Hrun' & _).
      specialize (Hrun _ (Nat.lt_succ_diag_r _)).
      specialize (Hrun' _ (Nat.lt_succ_diag_r _)).
      congruence.
  - intros c1 Et.
    destruct (traversal_outcome_any c H)
      as [[_ Er] | [(c' & Et' & _ & Hc & _) | Ea]]; congruence.
Qed.

Lemma LowerAST_run_terminates_witness :
  heap_ok test_ast = true /\
  (exists r,
      (forall fuel, count high_level (root test_ast) < fuel ->
                    LowerAST_run fuel test_ast = Some r) /\
      match r with
      | Return _ c' =>
          count is_AssignStmt (root c') = 0 /\
          count is_FrontendPrintStmt (root c') = 0
      | Throw _ => False
      | Abort => well_formed test_ast = false
      end) /\
  LowerAST_run 12 test_ast = Some (Return tt test_ast_lowered) /\
  LowerAST_run 11 test_ast = None.
Proof.
  split; [reflexivity |].
  split; [exact (proj1 (LowerAST_run_terminates test_ast eq_refl)) |].
  split; reflexivity.
Defined.

(** A parent link that is wrong stops the run in the fatal error of
    [replace_with]. *)
Example wrong_parent_is_fatal :
  heap_ok misparented = true /\
  well_formed misparented = false /\
  LowerAST_run 2 misparented = Some Abort.
Proof. repeat split. Qed.

Lemma run_after_restarts n c c0 :
  restarts n c c0 ->
  forall fuel, LowerAST_run (n + fuel) c = LowerAST_run fuel c0.
Proof.
  induction 1 as [c | n c c1 c0 Et _ IH]; intros fuel; [reflexivity |].
  simpl Nat.add. rewrite LowerAST_run_S, Et. apply IH.
Qed.

Lemma run_outcome fuel :
  forall c,
    match LowerAST_run fuel c with
    | Some (Return _ c') =>
        exists n c0,
          n < fuel /\ restarts n c c0 /\
          LowerAST_visit_StmtList (root c0) c0 = Return tt c'
    | Some (Throw _) => False
    | Some Abort =>
        exists n c0,
          n < fuel /\ restarts n c c0 /\
          LowerAST_visit_StmtList (root c0) c0 = Abort
    | None => exists c0, restarts fuel c c0
    end.
Proof.
  induction fuel as [| fuel IH]; intros c.
  - exists c. constructor.
  - rewrite LowerAST_run_S.
    destruct (LowerAST_visit_StmtList (root c) c) as [[] c' | c1 |] eqn:E.
    + exists 0, c. split; [lia |]. split; [constructor | exact E].
    + specialize (IH c1).
      destruct (LowerAST_run fuel c1) as [[[] c' | c' |] |].
      * destruct IH as (n & c0 & Hn & Hr & Hd).
        exists (S n), c0. split; [lia |]. split; [| exact Hd].
        exact (restarts_again n c c1 c0 E Hr).
      * exact IH.
      * destruct IH as (n & c0 & Hn & Hr & Hd).
        exists (S n), c0. split; [lia |]. split; [| exact Hd].
        exact (restarts_again n c c1 c0 E Hr).
      * destruct IH as (c0 & Hr). exists c0.
        exact (restarts_again fuel c c1 c0 E Hr).
    + exists 0, c. split; [lia |]. split; [constructor | exact E].
Qed.

Lemma run_of_restarts n c c0 fuel :
  restarts n c c0 -> n < fuel ->
  LowerAST_run fuel c
  = match LowerAST_visit_StmtList (root c0) c0 with
    | Return _ c' => Some (Return tt c')
    | Throw c1 => LowerAST_run (fuel - S n) c1
    | Abort => Some Abort
    end.
Proof.
  intros Hr Hn.
  replace fuel with (n + S (fuel - S n)) at 1 by lia.
  rewrite (run_after_restarts n c c0 Hr). apply LowerAST_run_S.
Qed.

(** C6. An [IRModifiedException] never leaves [LowerAST::run]: no run ends
    in [Throw].  The loop catches it and starts one new traversal from the
    root of the state the exception left, and nothing else: one pass
    through its body returns when the traversal returns, stops when the
    traversal stops in the fatal error, and goes on with the new state
    when the traversal throws.  So a run returns exactly when some number
    of traversals in a row have thrown, each from the state the one before
    left, and the next one returns; it stops in the fatal error exactly
    when the next one does; and it is still running after [fuel] passes
    exactly when [fuel] traversals in a row have thrown. *)
Theorem IRModifiedException_is_caught (fuel : nat) (c : Context) :
  (forall c', LowerAST_run fuel c <> Some (Throw c'))
  /\
  LowerAST_run (S fuel) c
  = match LowerAST_visit_StmtList (root c) c with
    | Return _ c' => Some (Return tt c')
    | Throw c1 => LowerAST_run fuel c1
    | Abort => Some Abort
    end
  /\
  (forall c',
      LowerAST_run fuel c = Some (Return tt c')
      <-> exists n c0,
            n < fuel /\ restarts n c c0 /\
            LowerAST_visit_StmtList (root c0) c0 = Return tt c')
  /\
  (LowerAST_run fuel c = Some Abort
   <-> exists n c0,
         n < fuel /\ restarts n c c0 /\
         LowerAST_visit_StmtList (root c0) c0 = Abort)
  /\
  (LowerAST_run fuel c = None <-> exists c0, restarts fuel c c0).
Proof.
  pose proof (run_outcome fuel c) as O.
  split; [| split; [apply LowerAST_run_S | split; [| split]]].
  - intros c' E. rewrite E in O. exact O.
  - intros c'. split.
    + intros E. rewrite E in O. exact O.
    + intros (n & c0 & Hn & Hr & Hd).
      rewrite (run_of_restarts n c c0 fuel Hr Hn), Hd. reflexivity.
  - split.
    + intros E. rewrite E in O. exact O.
    + intros (n & c0 & Hn & Hr & Hd).
      rewrite (run_of_restarts n c c0 fuel Hr Hn), Hd. reflexivity.
  - split.
    + intros E. rewrite E in O. exact O.
    + intros (c0 & Hr).
      rewrite <- (Nat.add_0_r fuel).
      rewrite (run_after_restarts fuel c c0 Hr 0). reflexivity.
Qed.

(** C10. The lowering pass changes no condition of an [IfStmt] and no bound
    of a [ForStmt]: after [LowerAST::run] has returned, the block-owning
    statements hold, in the same order, the expression trees they held
    before. *)
Theorem control_exprs_untouched (fuel : nat) (c c' : Context) :
  heap_ok c = true ->
  LowerAST_run fuel c = Some (Return tt c') ->
  control_exprs (root c') = control_exprs (root c).
Proof.
  revert c. induction fuel as [| fuel IH]; intros c H; [discriminate |].
  rewrite LowerAST_run_S.
  destruct (traversal_outcome_any c H)
    as [[_ Er] | [(c1 & Et & H1 & _ & Hx) | Ea]].
  - rewrite Er. intros E. injection E as <-. reflexivity.
  - rewrite Et. intros E. rewrite (IH c1 H1 E). exact Hx.
  - rewrite Ea. discriminate.
Qed.

Lemma control_exprs_untouched_witness :
  heap_ok test_ast = true /\
  LowerAST_run 12 test_ast = Some (Return tt test_ast_lowered) /\
  control_exprs (root test_ast_lowered) = control_exprs (root test_ast).
Proof.
  split; [reflexivity |]. split; [reflexivity |].
  apply (control_exprs_untouched 12 test_ast test_ast_lowered); reflexivity.
Defined.

(** ** The two rewrites *)

(** C2. When a traversal comes to an [AssignStmt], the pass flattens its
    right-hand side, appends one [LocalStoreStmt] that stores the last
    flattened statement into the target, and the tree after the traversal
    is the tree before with the assignment replaced by that sequence in the
    block that owns it.  So [x = x + 1] becomes load, const, binary op,
    store. *)
Theorem AssignStmt_lowering :
  (forall c h id rhs,
      well_formed c = true ->
      first_high_level (root c) = Some (AssignStmt h id rhs) ->
      exists flattened last r',
        flatten rhs [] c
          = Return flattened
              (mkContext (root c) (id_counter c + List.length flattened))
        /\ back flattened = Some last
        /\ splice (AssignStmt h id rhs)
             (flattened
                ++ [LocalStoreStmt
                      (fresh (id_counter c + List.length flattened))
                      id (sid_of last)])
             (root c) r'
        /\ LowerAST_visit_StmtList (root c) c
           = Throw (mkContext r' (S (id_counter c + List.length flattened))))
  /\
  (forall a i n,
      LowerAST_visit_StmtList
        (mkStmtList a [AssignStmt (at_ i a) "x" x_plus_1])
        (mkContext (mkStmtList a [AssignStmt (at_ i a) "x" x_plus_1]) n)
      = Throw
          (mkContext
             (mkStmtList a
                [ LocalLoadStmt (at_ n a) "x";
                  ConstStatement (at_ (1 + n) a) 1;
                  BinaryOpStmt (at_ (2 + n) a) add n (1 + n);
                  LocalStoreStmt (at_ (3 + n) a) "x" (2 + n) ])
             (4 + n))).
Proof.
  split.
  - intros c h id rhs W Ft.
    destruct (rewrite_step c _ rhs (fun v h0 => LocalStoreStmt h0 id v) W Ft
                (mk_store_ok id) (fun _ => eq_refl))
      as (out & last & r' & Ef & Eb & Et & Sp & _).
    exists out, last, r'. repeat split; assumption.
  - intros a i n. unfold bind, parent_replace_with; simpl.
    unfold bind, parent_replace_with; simpl.
    rewrite !Nat.eqb_refl. unfold replace_with; simpl.
    rewrite Nat.eqb_refl. reflexivity.
Qed.

Lemma AssignStmt_lowering_witness :
  well_formed assign_example = true /\
  first_high_level (root assign_example)
  = Some (AssignStmt (at_ 0 0) "x" x_plus_1) /\
  exists flattened last r',
    flatten x_plus_1 [] assign_example
      = Return flattened
          (mkContext (root assign_example)
             (id_counter assign_example + List.length flattened))
    /\ back flattened = Some last
    /\ splice (AssignStmt (at_ 0 0) "x" x_plus_1)
         (flattened
            ++ [LocalStoreStmt
                  (fresh (id_counter assign_example + List.length flattened))
                  "x" (sid_of last)])
         (root assign_example) r'
    /\ LowerAST_visit_StmtList (root assign_example) assign_example
       = Throw (mkContext r'
                  (S (id_counter assign_example + List.length flattened))).
Proof.
  split; [reflexivity |]. split; [reflexivity |].
  apply (proj1 AssignStmt_lowering); reflexivity.
Defined.

(** C3. When a traversal comes to a [FrontendPrintStmt], the pass flattens
    its expression, appends exactly one [PrintStmt] whose operand is the
    last flattened statement, and the tree after the traversal is the tree
    before with the statement replaced by that sequence in the block that
    owns it.  So [print(a < 500)] becomes load, const, comparison, print. *)
Theorem FrontendPrintStmt_lowering :
  (forall c h expr,
      well_formed c = true ->
      first_high_level (root c) = Some (FrontendPrintStmt h expr) ->
      exists flattened last r',
        flatten expr [] c
          = Return flattened
              (mkContext (root c) (id_counter c + List.length flattened))
        /\ back flattened = Some last
        /\ splice (FrontendPrintStmt h expr)
             (flattened
                ++ [PrintStmt (fresh (id_counter c + List.length flattened))
                      (sid_of last)])
             (root c) r'
        /\ LowerAST_visit_StmtList (root c) c
           = Throw (mkContext r' (S (id_counter c + List.length flattened))))
  /\
  (forall a i n,
      LowerAST_visit_StmtList
        (mkStmtList a [FrontendPrintStmt (at_ i a) a_lt_500])
        (mkContext (mkStmtList a [FrontendPrintStmt (at_ i a) a_lt_500]) n)
      = Throw
          (mkContext
             (mkStmtList a
                [ LocalLoadStmt (at_ n a) "a";
                  ConstStatement (at_ (1 + n) a) 500;
                  BinaryOpStmt (at_ (2 + n) a) cmp_lt n (1 + n);
                  PrintStmt (at_ (3 + n) a) (2 + n) ])
             (4 + n))).
Proof.
  split.
  - intros c h expr W Ft.
    destruct (rewrite_step c _ expr (fun v h0 => PrintStmt h0 v) W Ft
                mk_print_ok (fun _ => eq_refl))
      as (out & last & r' & Ef & Eb & Et & Sp & _).
    exists out, last, r'. repeat split; assumption.
  - intros a i n. unfold bind, parent_replace_with; simpl.
    unfold bind, parent_replace_with; simpl.
    rewrite !Nat.eqb_refl. unfold replace_with; simpl.
    rewrite Nat.eqb_refl. reflexivity.
Qed.

Lemma FrontendPrintStmt_lowering_witness :
  well_formed print_example = true /\
  first_high_level (root print_example)
  = Some (FrontendPrintStmt (at_ 0 0) a_lt_500) /\
  exists flattened last r',
    flatten a_lt_500 [] print_example
      = Return flattened
          (mkContext (root print_example)
             (id_counter print_example + List.length flattened))
    /\ back flattened = Some last
    /\ splice (FrontendPrintStmt (at_ 0 0) a_lt_500)
         (flattened
            ++ [PrintStmt
                  (fresh (id_counter print_example + List.length flattened))
                  (sid_of last)])
         (root print_example) r'
    /\ LowerAST_visit_StmtList (root print_example) print_example
       = Throw (mkContext r'
                  (S (id_counter print_example + List.length flattened))).
Proof.
  split; [reflexivity |]. split; [reflexivity |].
  apply (proj1 FrontendPrintStmt_lowering); reflexivity.
Defined.

(** ** The order of flattening *)

Lemma flatten_binary t l r v c :
  exists outl outr sl sr c1 c2,
    flatten l v c = Return (v ++ outl) c1
    /\ flatten r (v ++ outl) c1 = Return ((v ++ outl) ++ outr) c2
    /\ back outl = Some sl /\ back outr = Some sr
    /\ List.length outl = expr_size l /\ List.length outr = expr_size r
    /\ flatten (BinaryOpExpression t l r) v c
       = Return (v ++ outl ++ outr
                   ++ [BinaryOpStmt (fresh (id_counter c2)) t
                         (sid_of sl) (sid_of sr)])
           (mkContext (root c2) (S (id_counter c2))).
Proof.
  destruct (flatten_spec l v c) as (o1 & E1 & L1 & M1).
  destruct (flatten_spec r (v ++ o1)
              (mkContext (root c) (id_counter c + List.length o1)))
    as (o2 & E2 & L2 & M2).
  rewrite <- L1, <- L2.
  destruct (exists_last (proj1 M1)) as (o1' & s1 & ->).
  destruct (exists_last (proj1 M2)) as (o2' & s2 & ->).
  exists (o1' ++ [s1]), (o2' ++ [s2]), s1, s2.
  eexists. eexists.
  split; [exact E1 |]. split; [exact E2 |].
  split; [apply back_snoc |]. split; [apply back_snoc |].
  split; [reflexivity |]. split; [reflexivity |].
  simpl flatten. unfold bind at 1. rewrite E1.
  unfold bind at 1, back_get at 1.
  rewrite (back_app v (o1' ++ [s1])), back_snoc
    by (destruct o1'; discriminate).
  unfold bind at 1. rewrite E2.
  unfold bind at 1, back_get at 1.
  rewrite (back_app (v ++ o1' ++ [s1]) (o2' ++ [s2])), back_snoc
    by (destruct o2'; discriminate).
  unfold bind, make_unique, ret. simpl.
  rewrite <- !app_assoc. reflexivity.
Qed.

(** C4. Flattening is a post-order walk: the statements of the left operand
    come first, those of the right operand next, the [BinaryOpStmt] that
    combines the last statement of each comes last; leaves emit one
    statement.  So [a + b] gives load a, load b, binary op, and
    [(a + b) + c] gives load a, load b, binary op, load c, binary op. *)
Theorem flatten_evaluation_order :
  (forall t l r v c,
      exists outl outr sl sr c1 c2,
        flatten l v c = Return (v ++ outl) c1
        /\ flatten r (v ++ outl) c1 = Return ((v ++ outl) ++ outr) c2
        /\ back outl = Some sl /\ back outr = Some sr
        /\ flatten (BinaryOpExpression t l r) v c
           = Return (v ++ outl ++ outr
                       ++ [BinaryOpStmt (fresh (id_counter c2)) t
                             (sid_of sl) (sid_of sr)])
               (mkContext (root c2) (S (id_counter c2))))
  /\
  (forall i z v c,
      flatten (IdExpression i) v c
      = Return (v ++ [LocalLoadStmt (fresh (id_counter c)) i])
          (mkContext (root c) (S (id_counter c)))
      /\
      flatten (ConstExpression z) v c
      = Return (v ++ [ConstStatement (fresh (id_counter c)) z])
          (mkContext (root c) (S (id_counter c))))
  /\
  (forall r n,
      flatten (BinaryOpExpression add id_a id_b) [] (mkContext r n)
      = Return [ LocalLoadStmt (fresh n) "a";
                 LocalLoadStmt (fresh (1 + n)) "b";
                 BinaryOpStmt (fresh (2 + n)) add n (1 + n) ]
          (mkContext r (3 + n)))
  /\
  (forall r n,
      flatten (BinaryOpExpression add (BinaryOpExpression add id_a id_b)
                 (IdExpression "c"))
        [] (mkContext r n)
      = Return [ LocalLoadStmt (fresh n) "a";
                 LocalLoadStmt (fresh (1 + n)) "b";
                 BinaryOpStmt (fresh (2 + n)) add n (1 + n);
                 LocalLoadStmt (fresh (3 + n)) "c";
                 BinaryOpStmt (fresh (4 + n)) add (2 + n) (3 + n) ]
          (mkContext r (5 + n))).
Proof.
  split; [| split; [| split]]; try (intros; reflexivity).
  - intros t l r v c.
    destruct (flatten_binary t l r v c)
      as (o1 & o2 & s1 & s2 & c1 & c2 & E1 & E2 & B1 & B2 & _ & _ & E).
    exists o1, o2, s1, s2, c1, c2. repeat split; assumption.
  - intros. split; reflexivity.
Qed.

(** ** Structural replacement *)

Lemma locate_absent target ss :
  ~ In target (map sid_of ss) -> locate target ss = None.
Proof.
  induction ss as [| s r IH]; simpl; intros N; [reflexivity |].
  destruct (Nat.eqb_spec (sid (header s)) target) as [E | _].
  - exfalso. apply N. left. exact E.
  - rewrite IH by tauto. reflexivity.
Qed.

Lemma collect_set_parent {X} (g : Statement -> list X) a s :
  (forall a0 s0, g (set_parent a0 s0) = g s0) ->
  collect g (set_parent a s) = collect g s.
Proof.
  intros Hg. destruct s; simpl;
    match goal with
    | |- g ?x ++ _ = g ?y ++ _ => change x with (set_parent a y)
    end; rewrite Hg; reflexivity.
Qed.

Lemma sids_in_collect ss x :
  In x (map sid_of ss) -> In x (flat_map (collect idg) ss).
Proof.
  intros I. apply in_map_iff in I. destruct I as (s & <- & I).
  apply in_flat_map. exists s. split; [exact I | apply In_sid_collect].
Qed.

(** C5. [replace_with] on a block that holds the target: the result is the
    block with the replacement in the place of the target and the siblings
    before and after it as they were; the target is no longer in the tree;
    every replacement node has the block as its parent.  On a block that
    does not hold the target the call fails. *)
Theorem replace_with_correct (l : StmtList) (new : VecStatement) :
  (forall t,
      In t (statements l) ->
      NoDup (stmt_ids l) ->
      ~ In (sid_of t) (flat_map (collect idg) new) ->
      exists pre post,
        statements l = pre ++ t :: post /\
        replace_with l (sid_of t) new
        = Some (mkStmtList (addr l)
                  (pre ++ map (set_parent (addr l)) new ++ post)) /\
        ~ In (sid_of t)
            (stmt_ids (mkStmtList (addr l)
                         (pre ++ map (set_parent (addr l)) new ++ post))) /\
        Forall (fun s => parent (header s) = Some (addr l))
               (map (set_parent (addr l)) new))
  /\
  (forall target,
      ~ In target (map sid_of (statements l)) ->
      replace_with l target new = None).
Proof.
  destruct l as [a ss]. simpl. split.
  - intros t I N Hnew. apply in_split in I. destruct I as (pre & post & ->).
    exists pre, post. split; [reflexivity |].
    unfold stmt_ids in *. simpl in *.
    rewrite flat_map_app in N. simpl in N.
    assert (~ In (sid_of t) (flat_map (collect idg) pre)) as Npre.
    { intros I. apply (NoDup_app_disjoint _ _ (sid_of t) N I).
      apply in_or_app. left. apply In_sid_collect. }
    assert (~ In (sid_of t) (flat_map (collect idg) post)) as Npost.
    { intros I. apply NoDup_app_r in N.
      apply (NoDup_app_disjoint _ _ (sid_of t) N (In_sid_collect t) I). }
    split; [| split].
    + unfold replace_with, statements, addr. rewrite locate_here.
      * destruct (firstn_skipn_middle pre post t) as [-> ->]. reflexivity.
      * intros I. apply Npre. apply sids_in_collect. exact I.
    + rewrite !flat_map_app. intros I.
      apply in_app_or in I. destruct I as [I | I]; [exact (Npre I) |].
      apply in_app_or in I. destruct I as [I | I]; [| exact (Npost I)].
      apply Hnew. apply in_flat_map in I. destruct I as (s & Is & I).
      apply in_map_iff in Is. destruct Is as (s0 & <- & Is).
      rewrite collect_set_parent in I by (intros ? []; reflexivity).
      apply in_flat_map. exists s0. split; assumption.
    + apply Forall_forall. intros s Is.
      apply in_map_iff in Is. destruct Is as (s0 & <- & _).
      destruct s0; reflexivity.
  - intros target N. unfold replace_with. simpl.
    rewrite locate_absent by exact N. reflexivity.
Qed.

Lemma replace_with_correct_witness :
  In (AssignStmt (at_ 4 0) "a" (BinaryOpExpression add id_a id_b))
     (statements (root test_ast)) /\
  NoDup (stmt_ids (root test_ast)) /\
  ~ In 4 (flat_map (collect idg) [LocalLoadStmt (fresh 19) "a"]) /\
  ~ In 99 (map sid_of (statements (root test_ast))) /\
  (exists pre post,
      statements (root test_ast)
      = pre ++ AssignStmt (at_ 4 0) "a" (BinaryOpExpression add id_a id_b)
            :: post /\
      replace_with (root test_ast) 4 [LocalLoadStmt (fresh 19) "a"]
      = Some (mkStmtList 0
                (pre ++ map (set_parent 0) [LocalLoadStmt (fresh 19) "a"]
                     ++ post)) /\
      ~ In 4 (stmt_ids (mkStmtList 0
                (pre ++ map (set_parent 0) [LocalLoadStmt (fresh 19) "a"]
                     ++ post))) /\
      Forall (fun s => parent (header s) = Some 0)
             (map (set_parent 0) [LocalLoadStmt (fresh 19) "a"])) /\
  replace_with (root test_ast) 99 [LocalLoadStmt (fresh 19) "a"] = None.
Proof.
  assert (In (AssignStmt (at_ 4 0) "a" (BinaryOpExpression add id_a id_b))
             (statements (root test_ast))) as H1.
  { simpl. tauto. }
  assert (NoDup (stmt_ids (root test_ast))) as H2.
  { apply distinct_NoDup. reflexivity. }
  assert (~ In 4 (flat_map (collect idg) [LocalLoadStmt (fresh 19) "a"]))
    as H3.
  { simpl. intros [E | []]. discriminate. }
  assert (~ In 99 (map sid_of (statements (root test_ast)))) as H4.
  { simpl. intros H. repeat (destruct H as [H | H]; [discriminate |]).
    exact H. }
  split; [exact H1 |]. split; [exact H2 |]. split; [exact H3 |].
  split; [exact H4 |]. split.
  - exact (proj1 (replace_with_correct (root test_ast)
                    [LocalLoadStmt (fresh 19) "a"]) _ H1 H2 H3).
  - exact (proj2 (replace_with_correct (root test_ast)
                    [LocalLoadStmt (fresh 19) "a"]) 99 H4).
Defined.

(** ** Dispatch *)

(** C7. Visiting a node whose variant the visitor has no handler for is
    fatal when the visitor is strict and does nothing when it is
    permissive; a visitor is strict unless it says otherwise, and
    [TypeCheck], which sets [allow_undefined_visitor], lets every node
    pass. *)
Theorem dispatch_of_unhandled_variant {S : Type} (visitor : IRVisitor S)
    (node : IRNode) (st : S) :
  visit visitor (variant_of node) = None ->
  accept node visitor st
  = (if allow_undefined_visitor visitor then Return tt st else Abort)
  /\ allow_undefined_visitor (IRVisitor_base S) = false
  /\ allow_undefined_visitor TypeCheck = true
  /\ forall n u, accept n TypeCheck u = Return tt u.
Proof.
  intros H. split; [| split; [| split]]; try reflexivity.
  unfold accept. rewrite H.
  destruct (allow_undefined_visitor visitor); reflexivity.
Qed.

Lemma dispatch_of_unhandled_variant_witness :
  visit PropagateSchedule
    (variant_of (NodeStatement (AllocaStmt (at_ 0 0) "a"))) = None /\
  accept (NodeStatement (AllocaStmt (at_ 0 0) "a")) PropagateSchedule tt
  = Abort.
Proof.
  split; [reflexivity |].
  exact (proj1 (dispatch_of_unhandled_variant PropagateSchedule
                  (NodeStatement (AllocaStmt (at_ 0 0) "a")) tt eq_refl)).
Defined.

(** ** The output of the printer *)

Lemma IRPrinter_run_format type_hint name serialize binary_type_name
    format_value (l : StmtList) :
  IRPrinter_run type_hint name serialize binary_type_name format_value l
  = Return tt
      (mkIRPrinter (-1)
         (format_block type_hint name serialize binary_type_name
            format_value 0 l)).
Proof.
  unfold IRPrinter_run.
  rewrite (printer_refines_format type_hint name serialize binary_type_name
             format_value l 0 (mkIRPrinter (-1) []) eq_refl).
  reflexivity.
Qed.

Lemma format_line_count type_hint name serialize binary_type_name
    format_value :
  forall l d,
    List.length (format_block type_hint name serialize binary_type_name
                   format_value d l)
    = count any_statement l + count owns_blocks l + count has_else l.
Proof.
  unfold count.
  apply (StmtList_tree_ind
           (fun s => forall d,
                List.length (format_stmt type_hint name serialize
                               binary_type_name format_value d s)
                = List.length (collect (only any_statement) s)
                  + List.length (collect (only owns_blocks) s)
                  + List.length (collect (only has_else) s))
           (fun l => forall d,
                List.length (format_block type_hint name serialize
                               binary_type_name format_value d l)
                = List.length (collect_list (only any_statement) l)
                  + List.length (collect_list (only owns_blocks) l)
                  + List.length (collect_list (only has_else) l)));
    try (intros; reflexivity).
  - intros h c t f Ht Hf d. simpl.
    destruct t as [lt |], f as [lf |]; simpl in *;
      rewrite ?length_app; simpl; rewrite ?length_app; simpl;
      rewrite ?Ht, ?Hf; lia.
  - intros h i b e l Hl d. simpl. rewrite !length_app. simpl.
    rewrite Hl. lia.
  - intros a ss Hs d. simpl.
    induction Hs as [| s r Hs _ IH]; simpl; [reflexivity |].
    rewrite !length_app, Hs, IH. lia.
Qed.

Example nested_output :
  IRPrinter_run (fun _ => "int32") (fun _ => "@7") (fun _ => "<expr>")
    (fun _ => "add") (fun _ => "0") nested
  = Return tt
      (mkIRPrinter (-1)
         [ "if <expr> {";
           "  for i in range(<expr>, <expr>) {";
           "    int32 print @7";
           "  }";
           "} else {";
           "  [store] b = @7";
           "}" ]).
Proof. reflexivity. Qed.

(** C8, as stated, fails: an [IfStmt] is one statement and is printed as
    more than one line. *)
Lemma IfStmt_prints_two_lines :
  IRPrinter_run (fun _ => "float32") (fun _ => "@0") (fun _ => "a")
    (fun _ => "add") (fun _ => "0") lone_if
  = Return tt (mkIRPrinter (-1) ["if a {"; "}"])
  /\ count any_statement lone_if = 1.
Proof. split; reflexivity. Qed.

(** C8, amended.  The printer writes what section 6 describes: the text of
    the variant behind two spaces for each level of block depth, the
    statements of the root block at depth 0 and those of a nested block one
    deeper than the statement that owns it.  A statement that owns no block
    is one line; an [IfStmt] is its opening line, its true branch, an else
    line and the false branch when there is a false branch, and a closing
    line; a [ForStmt] is its opening line, its body and a closing line.  So
    the output has one line for each statement, one more for each
    [IfStmt] and [ForStmt], and one more for each else clause. *)
Theorem IRPrinter_output_format type_hint name serialize binary_type_name
    format_value (l : StmtList) :
  IRPrinter_run type_hint name serialize binary_type_name format_value l
  = Return tt
      (mkIRPrinter (-1)
         (format_block type_hint name serialize binary_type_name
            format_value 0 l))
  /\
  List.length (format_block type_hint name serialize binary_type_name
                 format_value 0 l)
  = count any_statement l + count owns_blocks l + count has_else l
  /\
  (forall d h v,
      format_stmt type_hint name serialize binary_type_name format_value d
        (ConstStatement h v)
      = [line d (type_hint (ConstStatement h v) ++ " " ++ name (sid h)
                   ++ " = const " ++ format_value v)%string])
  /\
  (forall d h id r,
      format_stmt type_hint name serialize binary_type_name format_value d
        (LocalStoreStmt h id r)
      = [line d ("[store] " ++ id ++ " = " ++ name r)%string])
  /\
  (forall d h c t,
      format_stmt type_hint name serialize binary_type_name format_value d
        (IfStmt h c t None)
      = line d ("if " ++ serialize c ++ " {")%string
          :: match t with
             | Some b =>
                 format_block type_hint name serialize binary_type_name
                   format_value (S d) b
             | None => []
             end
          ++ [line d "}"]).
Proof.
  split; [apply IRPrinter_run_format |].
  split; [apply format_line_count |].
  repeat split; intros; simpl; rewrite ?app_nil_r; reflexivity.
Qed.

(** * Further properties of the passes *)

(** ** What a traversal and a handler can end in *)

Lemma traversal_returns (l : StmtList) (c c' : Context) (u : unit) :
  LowerAST_visit_StmtList l c = Return u c'
  <-> count high_level l = 0 /\ c' = c.
Proof.
  pose proof (traversal_stops_at_first l c) as T. split.
  - intros E. destruct (first_high_level l) as [t |] eqn:Ft.
    + destruct T as [Ht T]. rewrite T in E.
      exfalso. exact (high_level_never_returns t c u c' Ht E).
    + split; [apply first_high_level_count; exact Ft | congruence].
  - intros [Z ->]. apply first_high_level_count in Z. rewrite Z in T.
    destruct u. exact T.
Qed.

(** X1. A traversal of a block returns normally exactly when the block has
    no high-level statement at any depth, and then it has changed
    nothing: the pass never changes the tree without throwing. *)
Theorem traversal_returns_iff (l : StmtList) (c c' : Context) (u : unit) :
  LowerAST_visit_StmtList l c = Return u c'
  <-> count high_level l = 0 /\ c' = c.
Proof. exact (traversal_returns l c c' u). Qed.

Lemma high_level_rewrite_body t :
  high_level t = true ->
  exists e mk,
    (forall v h, header (mk v h) = h /\ plain (mk v h)) /\
    (forall c0, LowerAST_visit t c0 = rewrite_body t e mk c0) /\
    replacement_size t = repeat tt (S (expr_size e)).
Proof.
  destruct t; try discriminate; intros _.
  - exists rhs, (fun v h => LocalStoreStmt h id v).
    split; [apply mk_store_ok |]. repeat split.
  - exists expr, (fun v h => PrintStmt h v).
    split; [apply mk_print_ok |]. repeat split.
Qed.

Lemma handler_outcome (t : Statement) (c : Context) :
  high_level t = true ->
  match LowerAST_visit t c with
  | Return _ _ => False
  | Throw c' =>
      exists a new,
        parent (header t) = Some a /\ new <> [] /\
        at_block a (fun l => replace_with l (sid_of t) new) (root c)
        = Updated (root c')
  | Abort =>
      forall a, parent (header t) = Some a ->
      exists new,
        new <> [] /\
        forall r,
          at_block a (fun l => replace_with l (sid_of t) new) (root c)
          <> Updated r
  end.
Proof.
  intros Ht.
  destruct (high_level_rewrite_body t Ht) as (e & mk & Hmk & Hv & _).
  destruct (rewrite_body_spec t e mk c Hmk) as (out & last & _ & _ & Em & Er).
  rewrite Hv, Er. set (new := out ++ _) in *.
  destruct (parent (header t)) as [a |]; [| discriminate].
  destruct (at_block a _ (root c)) as [| | r] eqn:Ea.
  - intros a' E. injection E as <-. exists new.
    split; [exact (proj1 Em) |]. intros r. rewrite Ea. discriminate.
  - intros a' E. injection E as <-. exists new.
    split; [exact (proj1 Em) |]. intros r. rewrite Ea. discriminate.
  - exists a, new. split; [reflexivity |]. split; [exact (proj1 Em) |].
    exact Ea.
Qed.

(** X2. The handler of a high-level statement never returns normally.  It
    throws after [replace_with] has succeeded on the block its parent link
    names, with a replacement that is not empty; it fails only when the
    parent link is null or [replace_with] does not succeed there, never at
    [flattened.back()]. *)
Theorem rewriting_handler_outcome (t : Statement) (c : Context) :
  high_level t = true ->
  match LowerAST_visit t c with
  | Return _ _ => False
  | Throw c' =>
      exists a new,
        parent (header t) = Some a /\ new <> [] /\
        at_block a (fun l => replace_with l (sid_of t) new) (root c)
        = Updated (root c')
  | Abort =>
      forall a, parent (header t) = Some a ->
      exists new,
        new <> [] /\
        forall r,
          at_block a (fun l => replace_with l (sid_of t) new) (root c)
          <> Updated r
  end.
Proof. exact (handler_outcome t c). Qed.

Lemma rewriting_handler_outcome_witness :
  high_level (AssignStmt (at_ 0 0) "x" x_plus_1) = true /\
  match LowerAST_visit (AssignStmt (at_ 0 0) "x" x_plus_1) assign_example with
  | Return _ _ => False
  | Throw c' =>
      exists a new,
        parent (header (AssignStmt (at_ 0 0) "x" x_plus_1)) = Some a /\
        new <> [] /\
        at_block a
          (fun l => replace_with l
                      (sid_of (AssignStmt (at_ 0 0) "x" x_plus_1)) new)
          (root assign_example)
        = Updated (root c')
  | Abort =>
      forall a,
        parent (header (AssignStmt (at_ 0 0) "x" x_plus_1)) = Some a ->
        exists new,
          new <> [] /\
          forall r,
            at_block a
              (fun l => replace_with l
                          (sid_of (AssignStmt (at_ 0 0) "x" x_plus_1)) new)
              (root assign_example)
            <> Updated r
  end.
Proof.
  split; [reflexivity |].
  apply (rewriting_handler_outcome (AssignStmt (at_ 0 0) "x" x_plus_1)
           assign_example).
  reflexivity.
Defined.

(** ** The loop *)

Lemma run_returns_at_fixed_point fuel :
  forall c c' u,
    LowerAST_run fuel c = Some (Return u c') ->
    LowerAST_visit_StmtList (root c') c' = Return tt c'.
Proof.
  induction fuel as [| fuel IH]; intros c c' u; [discriminate |].
  rewrite LowerAST_run_S.
  destruct (LowerAST_visit_StmtList (root c) c) as [v c0 | c1 |] eqn:E.
  - intros R. assert (c0 = c') as -> by congruence.
    apply traversal_returns in E. destruct E as [Z E]. rewrite E.
    apply traversal_returns. split; [exact Z | reflexivity].
  - apply IH.
  - discriminate.
Qed.

(** X3. [LowerAST::run] is idempotent: run again on what a run has
    returned, it makes one traversal and returns the same state. *)
Theorem LowerAST_run_idempotent (fuel : nat) (c c' : Context) (u : unit) :
  LowerAST_run fuel c = Some (Return u c') ->
  forall fuel', LowerAST_run (S fuel') c' = Some (Return tt c').
Proof.
  intros R fuel'. rewrite LowerAST_run_S.
  rewrite (run_returns_at_fixed_point fuel c c' u R). reflexivity.
Qed.

Lemma LowerAST_run_idempotent_witness :
  LowerAST_run 12 test_ast = Some (Return tt test_ast_lowered) /\
  forall fuel',
    LowerAST_run (S fuel') test_ast_lowered
    = Some (Return tt test_ast_lowered).
Proof.
  split; [reflexivity |].
  apply (LowerAST_run_idempotent 12 test_ast test_ast_lowered tt).
  reflexivity.
Defined.

Lemma restarts_to_fixed_point n :
  forall c, well_formed c = true -> count high_level (root c) = n ->
  exists c',
    restarts n c c' /\
    LowerAST_visit_StmtList (root c') c' = Return tt c'.
Proof.
  induction n as [| n IH]; intros c W Hn.
  - exists c. split; [constructor | exact (traversal_completes c Hn)].
  - destruct (traversal_outcome c W) as [[Z _] | (c1 & Et & W1 & Hc & _)];
      [congruence |].
    destruct (IH c1 W1) as (c' & Hr & Hd); [congruence |].
    exists c'. split; [| exact Hd].
    exact (restarts_again n c c1 c' Et Hr).
Qed.

Lemma run_still_going fuel :
  forall c, well_formed c = true -> fuel <= count high_level (root c) ->
            LowerAST_run fuel c = None.
Proof.
  induction fuel as [| fuel IH]; intros c W L; [reflexivity |].
  rewrite LowerAST_run_S.
  destruct (traversal_outcome c W) as [[Z _] | (c1 & Et & W1 & Hc & _)];
    [lia |].
  rewrite Et. apply IH; [exact W1 | lia].
Qed.

(** X4. On a well-formed tree the loop makes exactly one traversal more
    than there are high-level statements: as many traversals as there are
    high-level statements throw, one after the other, and the next one
    returns.  So after at most that many passes through its body the loop
    is still running, and after any more it has returned, always with the
    same state. *)
Theorem LowerAST_run_traversals (c : Context) :
  well_formed c = true ->
  exists c',
    restarts (count high_level (root c)) c c' /\
    LowerAST_visit_StmtList (root c') c' = Return tt c' /\
    forall fuel,
      LowerAST_run fuel c
      = if fuel <=? count high_level (root c) then None
        else Some (Return tt c').
Proof.
  intros W.
  destruct (restarts_to_fixed_point _ c W eq_refl) as (c' & Hr & Hd).
  exists c'. split; [exact Hr |]. split; [exact Hd |].
  intros fuel. destruct (Nat.leb_spec fuel (count high_level (root c)))
    as [L | G].
  - exact (run_still_going fuel c W L).
  - rewrite (run_of_restarts _ c c' fuel Hr G), Hd. reflexivity.
Qed.

Lemma LowerAST_run_traversals_witness :
  well_formed test_ast = true /\
  (exists c',
      restarts (count high_level (root test_ast)) test_ast c' /\
      LowerAST_visit_StmtList (root c') c' = Return tt c' /\
      forall fuel,
        LowerAST_run fuel test_ast
        = if fuel <=? count high_level (root test_ast) then None
          else Some (Return tt c')) /\
  count high_level (root test_ast) = 11 /\
  LowerAST_run 11 test_ast = None /\
  LowerAST_run 12 test_ast = Some (Return tt test_ast_lowered).
Proof.
  split; [reflexivity |].
  split; [exact (LowerAST_run_traversals test_ast eq_refl) |].
  repeat split.
Defined.

(** ** A parent link that is wrong *)

Lemma locate_none x ss :
  existsb (fun s => sid_of s =? x) ss = false -> locate x ss = None.
Proof.
  induction ss as [| s r IH]; simpl; [reflexivity |].
  intros E. apply orb_false_iff in E. destruct E as [E1 E2].
  unfold sid_of in E1. rewrite E1, (IH E2). reflexivity.
Qed.

Lemma missing_target_fails a x new :
  forall l,
    In a (block_addrs l) -> holds a x l = false ->
    at_block a (fun b => replace_with b x new) l = Failed.
Proof.
  apply (StmtList_tree_ind
           (fun s => In a (block_addrs_stmt s) -> holds_stmt a x s = false ->
                     at_block_stmt a (fun b => replace_with b x new) s
                     = Failed)
           (fun l => In a (block_addrs l) -> holds a x l = false ->
                     at_block a (fun b => replace_with b x new) l = Failed));
    try (intros; simpl in *; contradiction).
  - intros h c t f Ht Hf I H. simpl in *.
    apply orb_false_iff in H. destruct H as [H1 H2].
    apply in_app_or in I.
    destruct t as [lt |]; simpl in *.
    + destruct (in_dec Nat.eq_dec a (block_addrs lt)) as [It | Nt].
      * rewrite (Ht It H1). reflexivity.
      * rewrite (at_block_dangling a _ lt Nt).
        destruct I as [I | I]; [contradiction |].
        destruct f as [lf |]; simpl in *; [| contradiction].
        rewrite (Hf I H2). reflexivity.
    + destruct I as [[] | I].
      destruct f as [lf |]; simpl in *; [| contradiction].
      rewrite (Hf I H2). reflexivity.
  - intros h i b e l Hl I H. simpl in *. rewrite (Hl I H). reflexivity.
  - intros a0 ss Hs I H. simpl in H.
    apply orb_false_iff in H. destruct H as [H1 H2].
    destruct (Nat.eq_dec a0 a) as [-> | Ne].
    + rewrite Nat.eqb_refl in H1. simpl in H1.
      rewrite at_block_here, replace_with_eq, (locate_none x ss H1).
      reflexivity.
    + rewrite at_block_deeper by exact Ne.
      simpl in I. destruct I as [E | I]; [contradiction |].
      clear H1. induction Hs as [| s r Hs _ IH]; simpl in *; [contradiction |].
      apply orb_false_iff in H2. destruct H2 as [H2 H3].
      destruct (in_dec Nat.eq_dec a (block_addrs_stmt s)) as [Is | Ns].
      * rewrite (Hs Is H2). reflexivity.
      * rewrite (at_block_stmt_dangling a _ s Ns).
        apply in_app_or in I. destruct I as [I | I]; [contradiction |].
        specialize (IH I H3).
        destruct (search_block _ r); simpl in *; congruence.
Qed.

(** X5. When the parent link of the first high-level statement of the tree
    names a block of the tree, and no block with that address has the
    statement among its own statements, [replace_with] does not find its
    target there, and the run stops at its first traversal: the handler
    does not go on after the failure, and the loop does not catch it.
    (A parent link that is null or names no block of the tree is left
    out: there the call itself is undefined.) *)
Theorem wrong_parent_stops_run (c : Context) (t : Statement) (a : nat)
    (fuel : nat) :
  first_high_level (root c) = Some t ->
  parent (header t) = Some a ->
  In a (block_addrs (root c)) ->
  holds a (sid_of t) (root c) = false ->
  (forall new,
      at_block a (fun l => replace_with l (sid_of t) new) (root c) = Failed)
  /\ LowerAST_visit_StmtList (root c) c = Abort
  /\ LowerAST_run (S fuel) c = Some Abort.
Proof.
  intros Ft Pa Ia Hw.
  assert (forall new,
             at_block a (fun l => replace_with l (sid_of t) new) (root c)
             = Failed) as F.
  { intros new. exact (missing_target_fails a (sid_of t) new _ Ia Hw). }
  split; [exact F |].
  pose proof (traversal_stops_at_first (root c) c) as T. rewrite Ft in T.
  destruct T as [Ht T].
  assert (LowerAST_visit_StmtList (root c) c = Abort) as A.
  { rewrite T. pose proof (handler_outcome t c Ht) as O.
    destruct (LowerAST_visit t c) as [u c' | c' |];
      [contradiction | | reflexivity].
    destruct O as (a' & new & Pa' & _ & Ea).
    assert (a' = a) as -> by congruence.
    rewrite F in Ea. discriminate. }
  split; [exact A |]. rewrite LowerAST_run_S, A. reflexivity.
Qed.

Lemma wrong_parent_stops_run_witness :
  first_high_level (root misparented)
  = Some (AssignStmt (at_ 1 0) "x" x_plus_1) /\
  parent (header (AssignStmt (at_ 1 0) "x" x_plus_1)) = Some 0 /\
  In 0 (block_addrs (root misparented)) /\
  holds 0 (sid_of (AssignStmt (at_ 1 0) "x" x_plus_1)) (root misparented)
  = false /\
  (forall new,
      at_block 0
        (fun l => replace_with l
                    (sid_of (AssignStmt (at_ 1 0) "x" x_plus_1)) new)
        (root misparented) = Failed) /\
  LowerAST_visit_StmtList (root misparented) misparented = Abort /\
  LowerAST_run 1 misparented = Some Abort.
Proof.
  assert (In 0 (block_addrs (root misparented))) as I.
  { simpl. left. reflexivity. }
  split; [reflexivity |]. split; [reflexivity |]. split; [exact I |].
  split; [reflexivity |].
  exact (wrong_parent_stops_run misparented
           (AssignStmt (at_ 1 0) "x" x_plus_1) 0 0
           eq_refl eq_refl I eq_refl).
Defined.

(** ** One throwing traversal, in full *)

Lemma throwing_traversal c c1 :
  heap_ok c = true ->
  LowerAST_visit_StmtList (root c) c = Throw c1 ->
  exists t new,
    first_high_level (root c) = Some t /\ high_level t = true /\
    splice t new (root c) (root c1) /\
    emitted (id_counter c) new /\
    id_counter c1 = id_counter c + List.length new /\
    replacement_size t = repeat tt (List.length new) /\
    heap_ok c1 = true.
Proof.
  intros H Et.
  pose proof (traversal_stops_at_first (root c) c) as T.
  destruct (first_high_level (root c)) as [t |] eqn:Ft; [| congruence].
  destruct T as [Ht T]. rewrite T in Et. clear T.
  destruct (high_level_rewrite_body t Ht) as (e & mk & Hmk & Hv & Hs).
  destruct (rewrite_body_spec t e mk c Hmk) as (out & last & Ef & _ & Em & Er).
  destruct (flatten_spec e [] c) as (out' & Ef' & Lo & _).
  rewrite Ef in Ef'. injection Ef' as Eo _. simpl in Eo. subst out'.
  rewrite Hv, Er in Et. set (new := out ++ _) in *.
  assert (List.length new = S (expr_size e)) as Ln.
  { unfold new. rewrite length_app. simpl. lia. }
  destruct (parent (header t)) as [a |]; [| discriminate].
  destruct (at_block a _ (root c)) as [| | r] eqn:Ea; try discriminate.
  injection Et as <-. simpl.
  assert (NoDup (stmt_ids (root c))) as N.
  { unfold heap_ok in H. apply andb_true_iff in H.
    apply distinct_NoDup, H. }
  pose proof (proj2 (replaced_anywhere t new (root c) N a r Ea) Ft) as Sp.
  exists t, new.
  split; [reflexivity |]. split; [exact Ht |]. split; [exact Sp |].
  split; [exact Em |]. split; [lia |]. split.
  - rewrite Hs, Ln. reflexivity.
  - replace (S (id_counter c + List.length out))
      with (id_counter c + List.length new) by lia.
    exact (splice_heap_ok t new c r H Ht Em Sp).
Qed.

(** ** Gathering, in general *)





(** Where [p] holds of no statement, nothing that lives on [p] alone is
    gathered. *)
Lemma collect_none {X} (p : Statement -> bool) (g : Statement -> list X) :
  (forall s, p s = false -> g s = []) ->
  forall l, count p l = 0 -> collect_list g l = [].
Proof.
  intros Hg. unfold count.
  assert (forall s, only p s = [] -> g s = []) as Ho.
  { intros s. unfold only. destruct (p s) eqn:Ep; [discriminate |].
    intros _. exact (Hg s Ep). }
  assert (forall l, collect_list (only p) l = [] -> collect_list g l = [])
    as H.
  { apply (StmtList_tree_ind
             (fun s => collect (only p) s = [] -> collect g s = [])
             (fun l => collect_list (only p) l = [] -> collect_list g l = []));
      try (intros;
           match goal with
           | E : collect (only p) ?s = [] |- collect g ?s = [] =>
               rewrite (collect_leaf (only p)) in E by reflexivity;
               rewrite (collect_leaf g) by reflexivity; exact (Ho _ E)
           end).
    - intros h c t f Ht Hf E. simpl in *.
      apply app_eq_nil in E. destruct E as [E1 E2].
      apply app_eq_nil in E2. destruct E2 as [E2 E3].
      rewrite (Ho _ E1). simpl.
      destruct t as [l |], f as [l2 |]; simpl in *;
        rewrite ?Ht, ?Hf; auto.
    - intros h i b e l Hl E. simpl in *.
      apply app_eq_nil in E. destruct E as [E1 E2].
      rewrite (Ho _ E1). simpl. auto.
    - intros a ss Hs E. simpl in *.
      induction Hs as [| s r Hs _ IH]; simpl in *; [reflexivity |].
      apply app_eq_nil in E. destruct E as [E1 E2].
      rewrite Hs, IH; auto. }
  intros l E. apply length_zero_iff_nil in E. exact (H l E).
Qed.

(** ** The order of the rewrites *)















(** ** What the run keeps *)

Lemma shape_set_parent a s : shape (set_parent a s) = shape s.
Proof. destruct s; reflexivity. Qed.

Lemma local_keep n : local (keep n).
Proof.
  repeat split; intros; try reflexivity.
  unfold keep. rewrite shape_set_parent. destruct s; reflexivity.
Qed.

Lemma keep_high n t : high_level t = true -> keep n t = [].
Proof. intros H. unfold keep. rewrite H. reflexivity. Qed.

Lemma keep_new n m new :
  n <= m -> emitted m new -> flat_map (keep n) new = [].
Proof.
  intros L (_ & Hs & _).
  assert (forall s, In s new -> n <= sid_of s) as G.
  { intros s I. assert (In (sid_of s) (map sid_of new)) as I'
        by (apply in_map; exact I).
    rewrite Hs in I'. apply in_seq in I'. lia. }
  clear Hs. induction new as [| s r IH]; simpl; [reflexivity |].
  rewrite IH by (intros x I; apply G; right; exact I).
  unfold keep. destruct (high_level s); [reflexivity |].
  destruct (Nat.ltb_spec (sid_of s) n) as [Lt | _]; [| reflexivity].
  specialize (G s (or_introl eq_refl)). lia.
Qed.

Lemma settled_kept n fuel :
  forall c c' u,
    heap_ok c = true -> n <= id_counter c ->
    LowerAST_run fuel c = Some (Return u c') ->
    settled n (root c') = settled n (root c).
Proof.
  induction fuel as [| fuel IH]; intros c c' u H L; [discriminate |].
  rewrite LowerAST_run_S.
  destruct (LowerAST_visit_StmtList (root c) c) as [v c0 | c1 |] eqn:E.
  - intros R. assert (c0 = c') as -> by congruence.
    apply traversal_returns in E. destruct E as [_ ->]. reflexivity.
  - intros R.
    destruct (throwing_traversal c c1 H E)
      as (t & new & _ & Ht & Sp & Em & Ec & _ & H1).
    rewrite (IH c1 c' u H1 ltac:(lia) R).
    destruct (splice_collect (keep n) t new _ _ (local_keep n)
                (high_level_leaf t Ht)
                (plain_leaves new (proj2 (proj2 Em))) Sp)
      as (l1 & l2 & E0 & E1).
    unfold settled. rewrite E0, E1, (keep_high n t Ht).
    rewrite (keep_new n (id_counter c) new L Em). reflexivity.
  - discriminate.
Qed.

Lemma settled_all n :
  forall l, (forall x, In x (stmt_ids l) -> x < n) ->
            settled n l = low_level l.
Proof.
  unfold settled, low_level, stmt_ids.
  assert (forall s, sid_of s < n ->
                    keep n s = (if high_level s then [] else [shape s])) as K.
  { intros s Lt. unfold keep.
    destruct (Nat.ltb_spec (sid_of s) n); [reflexivity | lia]. }
  apply (StmtList_tree_ind
           (fun s => (forall x, In x (collect idg s) -> x < n) ->
                     collect (keep n) s
                     = collect (fun s => if high_level s then []
                                         else [shape s]) s)
           (fun l => (forall x, In x (collect_list idg l) -> x < n) ->
                     collect_list (keep n) l
                     = collect_list (fun s => if high_level s then []
                                              else [shape s]) l));
    try (intros;
         match goal with
         | G : forall x, _ -> x < n |- collect (keep n) ?s = _ =>
             rewrite !collect_leaf by reflexivity; apply K; apply G;
             rewrite collect_leaf by reflexivity; left; reflexivity
         end).
  - intros h c t f Ht Hf G. simpl in *.
    rewrite K by (apply G; left; reflexivity). simpl. f_equal.
    destruct t as [lt |], f as [lf |]; simpl in *; rewrite ?app_nil_r in *.
    + rewrite Ht, Hf; [reflexivity | |];
        intros x I; apply G; right; apply in_or_app; tauto.
    + apply Ht. intros x I. apply G. right. exact I.
    + apply Hf. intros x I. apply G. right. exact I.
    + reflexivity.
  - intros h i b e l Hl G. simpl in *.
    rewrite K by (apply G; left; reflexivity). simpl. f_equal.
    apply Hl. intros x I. apply G. right. exact I.
  - intros a ss Hs G. simpl in *.
    induction Hs as [| s r Hs _ IH]; simpl in *; [reflexivity |].
    rewrite Hs, IH; [reflexivity | |];
      intros x I; apply G; apply in_or_app; tauto.
Qed.

(** X7. The run keeps what was lowered already: the statements of the
    result that were there before the run are the statements of the input
    that are not high-level, each with its identity, its operands and (for
    an [IfStmt] or [ForStmt]) its condition or bounds, in the same order;
    every other statement of the result is new. *)
Theorem lowering_keeps_low_level (fuel : nat) (c c' : Context) (u : unit) :
  heap_ok c = true ->
  LowerAST_run fuel c = Some (Return u c') ->
  settled (id_counter c) (root c') = low_level (root c).
Proof.
  intros H R.
  rewrite (settled_kept (id_counter c) fuel c c' u H (Nat.le_refl _) R).
  apply settled_all. intros x I.
  unfold heap_ok in H. apply andb_true_iff in H. destruct H as [_ H].
  rewrite forallb_forall in H. apply Nat.ltb_lt. exact (H x I).
Qed.

Lemma lowering_keeps_low_level_witness :
  heap_ok test_ast = true /\
  LowerAST_run 12 test_ast = Some (Return tt test_ast_lowered) /\
  settled (id_counter test_ast) (root test_ast_lowered)
  = low_level (root test_ast).
Proof.
  split; [reflexivity |]. split; [reflexivity |].
  apply (lowering_keeps_low_level 12 test_ast test_ast_lowered tt);
    reflexivity.
Defined.

Lemma well_formed_heap_ok c : well_formed c = true -> heap_ok c = true.
Proof.
  unfold well_formed. rewrite !andb_true_iff. tauto.
Qed.

Lemma context_eta c : c = mkContext (root c) (id_counter c).
Proof. destruct c; reflexivity. Qed.

(** X8. The run keeps a well-formed tree well formed, and it neither makes
    nor removes a block: the result has the blocks of the input, with the
    same addresses in the same order. *)
Theorem lowering_keeps_well_formed (fuel : nat) (c c' : Context) (u : unit) :
  well_formed c = true ->
  LowerAST_run fuel c = Some (Return u c') ->
  well_formed c' = true /\ block_addrs (root c') = block_addrs (root c).
Proof.
  revert c. induction fuel as [| fuel IH]; intros c W; [discriminate |].
  rewrite LowerAST_run_S.
  destruct (LowerAST_visit_StmtList (root c) c) as [v c0 | c1 |] eqn:E.
  - intros R. assert (c0 = c') as -> by congruence.
    apply traversal_returns in E. destruct E as [_ ->]. auto.
  - intros R.
    destruct (throwing_traversal c c1 (well_formed_heap_ok c W) E)
      as (t & new & _ & Ht & Sp & Em & Ec & _ & _).
    assert (well_formed c1 = true) as W1.
    { rewrite (context_eta c1), Ec.
      exact (splice_well_formed t new c (root c1) W Ht Em Sp). }
    destruct (IH c1 W1 R) as [W' B]. split; [exact W' |].
    rewrite B.
    exact (splice_block_addrs t new _ _ (high_level_leaf t Ht)
             (plain_leaves new (proj2 (proj2 Em))) Sp).
  - discriminate.
Qed.

Lemma lowering_keeps_well_formed_witness :
  well_formed test_ast = true /\
  LowerAST_run 12 test_ast = Some (Return tt test_ast_lowered) /\
  well_formed test_ast_lowered = true /\
  block_addrs (root test_ast_lowered) = block_addrs (root test_ast).
Proof.
  split; [reflexivity |]. split; [reflexivity |].
  apply (lowering_keeps_well_formed 12 test_ast test_ast_lowered tt);
    reflexivity.
Defined.

(** ** How much the run makes *)

Lemma local_replacement_size : local replacement_size.
Proof. repeat split; intros; try reflexivity. destruct s; reflexivity. Qed.

Lemma local_only_any : local (only any_statement).
Proof. repeat split; intros; reflexivity. Qed.

Lemma plain_replacement_size new :
  Forall plain new -> flat_map replacement_size new = [].
Proof.
  induction 1 as [| s r [_ Hs] _ IH]; simpl; [reflexivity |].
  rewrite IH. destruct s; try discriminate; reflexivity.
Qed.

Lemma any_new (new : VecStatement) :
  List.length (flat_map (only any_statement) new) = List.length new.
Proof. induction new; simpl; congruence. Qed.

Lemma replacement_size_low s :
  high_level s = false -> replacement_size s = [].
Proof. destruct s; try discriminate; reflexivity. Qed.

(** X9. The run makes, for every high-level statement, one statement for
    each node of its expression and one store or print, and nothing else:
    the counter of identities has advanced by that sum, and the result has
    as many statements as the input has that are not high-level, and that
    sum. *)
Theorem lowering_size (fuel : nat) (c c' : Context) (u : unit) :
  heap_ok c = true ->
  LowerAST_run fuel c = Some (Return u c') ->
  id_counter c' = id_counter c + to_emit (root c) /\
  count any_statement (root c') + count high_level (root c)
  = count any_statement (root c) + to_emit (root c).
Proof.
  revert c. induction fuel as [| fuel IH]; intros c H; [discriminate |].
  rewrite LowerAST_run_S.
  destruct (LowerAST_visit_StmtList (root c) c) as [v c0 | c1 |] eqn:E.
  - intros R. assert (c0 = c') as -> by congruence.
    apply traversal_returns in E. destruct E as [Z ->].
    unfold to_emit.
    rewrite (collect_none high_level replacement_size replacement_size_low
               _ Z).
    simpl. lia.
  - intros R.
    destruct (throwing_traversal c c1 H E)
      as (t & new & _ & Ht & Sp & Em & Ec & Hs & H1).
    destruct (IH c1 H1 R) as [I1 I2].
    pose proof (high_level_leaf t Ht) as Hl.
    pose proof (plain_leaves new (proj2 (proj2 Em))) as Hln.
    destruct (splice_collect replacement_size t new _ _
                local_replacement_size Hl Hln Sp) as (a1 & a2 & A & A').
    destruct (splice_collect (only any_statement) t new _ _
                local_only_any Hl Hln Sp) as (b1 & b2 & B & B').
    pose proof (splice_count t new _ _ Ht (proj2 (proj2 Em)) Sp) as Hc.
    unfold to_emit, count in *.
    rewrite A' in I1, I2. rewrite B' in I2. rewrite A, B.
    rewrite (plain_replacement_size new (proj2 (proj2 Em))) in I1, I2.
    rewrite Hs. rewrite !length_app in *. rewrite any_new in I2.
    rewrite repeat_length. simpl in *. lia.
  - discriminate.
Qed.

Lemma lowering_size_witness :
  heap_ok test_ast = true /\
  LowerAST_run 12 test_ast = Some (Return tt test_ast_lowered) /\
  id_counter test_ast_lowered = id_counter test_ast + to_emit (root test_ast) /\
  count any_statement (root test_ast_lowered)
    + count high_level (root test_ast)
  = count any_statement (root test_ast) + to_emit (root test_ast).
Proof.
  split; [reflexivity |]. split; [reflexivity |].
  apply (lowering_size 12 test_ast test_ast_lowered tt); reflexivity.
Defined.

(** ** The printer, from any state *)

Lemma print_appends text z out :
  print text (mkIRPrinter z out)
  = Return tt (mkIRPrinter z (out ++ [(indentation z ++ text)%string])).
Proof. reflexivity. Qed.

Section PrinterAnywhere.
Variable type_hint : Statement -> string.
Variable name : StmtRef -> string.
Variable serialize : Expr -> string.
Variable binary_type_name : BinaryType -> string.
Variable format_value : Z -> string.

Local Abbreviation visit_stmt :=
  (IRPrinter_visit type_hint name serialize binary_type_name format_value).
Local Abbreviation visit_list :=
  (IRPrinter_visit_StmtList type_hint name serialize binary_type_name
     format_value).

Lemma for_each_appends ss :
  Forall (fun s => forall z, exists lines, forall out,
              visit_stmt s (mkIRPrinter z out)
              = Return tt (mkIRPrinter z (out ++ lines))) ss ->
  forall z, exists lines, forall out,
    for_each visit_stmt ss (mkIRPrinter z out)
    = Return tt (mkIRPrinter z (out ++ lines)).
Proof.
  induction 1 as [| s r Hs _ IH]; intros z.
  - exists []. intros out. simpl. rewrite app_nil_r. reflexivity.
  - destruct (Hs z) as (l1 & E1). destruct (IH z) as (l2 & E2).
    exists (l1 ++ l2). intros out. simpl.
    rewrite (bind_Return _ _ _ _ _ (E1 out)), E2, app_assoc. reflexivity.
Qed.

Lemma visit_appends :
  forall l z, exists lines, forall out,
    visit_list l (mkIRPrinter z out)
    = Return tt (mkIRPrinter z (out ++ lines)).
Proof.
  apply (StmtList_tree_ind
           (fun s => forall z, exists lines, forall out,
                visit_stmt s (mkIRPrinter z out)
                = Return tt (mkIRPrinter z (out ++ lines)))
           (fun l => forall z, exists lines, forall out,
                visit_list l (mkIRPrinter z out)
                = Return tt (mkIRPrinter z (out ++ lines))));
    try (intros; eexists; intros out; simpl; apply print_appends).
  - intros h c t f Ht Hf z.
    assert (exists lt, forall out,
               match t with
               | Some l => visit_list l
               | None => ret tt
               end (mkIRPrinter z out)
               = Return tt (mkIRPrinter z (out ++ lt))) as (lt & Et).
    { destruct t as [l |]; simpl in Ht.
      - exact (Ht z).
      - exists []. intros out. rewrite app_nil_r. reflexivity. }
    assert (exists lf, forall out,
               match f with
               | Some l => print "} else {" ;;; visit_list l
               | None => ret tt
               end (mkIRPrinter z out)
               = Return tt (mkIRPrinter z (out ++ lf))) as (lf & Ef).
    { destruct f as [l |]; simpl in Hf.
      - destruct (Hf z) as (lf & Ef). eexists. intros out.
        rewrite (bind_Return _ _ _ _ _ (print_appends _ z out)), Ef.
        rewrite <- app_assoc. reflexivity.
      - exists []. intros out. rewrite app_nil_r. reflexivity. }
    eexists. intros out. simpl.
    rewrite (bind_Return _ _ _ _ _ (print_appends _ z out)).
    rewrite (bind_Return _ _ _ _ _ (Et _)).
    rewrite (bind_Return _ _ _ _ _ (Ef _)).
    rewrite print_appends, <- !app_assoc. reflexivity.
  - intros h i b e l Hl z. destruct (Hl z) as (lb & Eb).
    eexists. intros out. simpl.
    rewrite (bind_Return _ _ _ _ _ (print_appends _ z out)).
    rewrite (bind_Return _ _ _ _ _ (Eb _)).
    rewrite print_appends, <- !app_assoc. reflexivity.
  - intros a ss Hs z.
    destruct (for_each_appends ss Hs (z + 1)%Z) as (lines & E).
    exists lines. intros out. simpl.
    unfold bind at 1, indent_by at 1. simpl.
    rewrite (bind_Return _ _ _ _ _ (E out)).
    unfold indent_by. simpl. f_equal. f_equal. lia.
Qed.
End PrinterAnywhere.

(** X10. From any state, whatever the indentation (negative too) and
    whatever has been written, the printer visits a block without failing
    and without throwing, leaves [current_indent] as it found it, and only
    appends to the output; what it appends does not depend on what was
    written before. *)
Theorem IRPrinter_only_appends type_hint name serialize binary_type_name
    format_value (l : StmtList) (z : Z) :
  exists lines, forall out,
    IRPrinter_visit_StmtList type_hint name serialize binary_type_name
      format_value l (mkIRPrinter z out)
    = Return tt (mkIRPrinter z (out ++ lines)).
Proof.
  exact (visit_appends type_hint name serialize binary_type_name
           format_value l z).
Qed.

(** X11. With a statement for [node], [IRPrinter::run] starts the
    statement at [current_indent = -1]: the loop of [print] then writes no
    indentation, and the statements of its blocks, one level deeper, get
    none either.  The statement and the contents of its blocks come out
    in the same column. *)
Theorem IRPrinter_statement_as_root type_hint name serialize
    binary_type_name format_value (s : Statement) :
  IRPrinter_visit type_hint name serialize binary_type_name format_value s
    (mkIRPrinter (-1) [])
  = Return tt
      (mkIRPrinter (-1)
         (format_as_root type_hint name serialize binary_type_name
            format_value s)).
Proof.
  assert (forall l out,
             IRPrinter_visit_StmtList type_hint name serialize
               binary_type_name format_value l (mkIRPrinter (-1) out)
             = Return tt
                 (mkIRPrinter (-1)
                    (out ++ format_block type_hint name serialize
                              binary_type_name format_value 0 l))) as B.
  { intros l out.
    exact (printer_refines_format type_hint name serialize binary_type_name
             format_value l 0 (mkIRPrinter (-1) out) eq_refl). }
  destruct s; try reflexivity.
  - assert (forall out,
               match true_statements with
               | Some l =>
                   IRPrinter_visit_StmtList type_hint name serialize
                     binary_type_name format_value l
               | None => ret tt
               end (mkIRPrinter (-1) out)
               = Return tt
                   (mkIRPrinter (-1)
                      (out ++ match true_statements with
                              | Some l =>
                                  format_block type_hint name serialize
                                    binary_type_name format_value 0 l
                              | None => []
                              end))) as Et.
    { intros out. destruct true_statements as [l |]; [apply B |].
      rewrite app_nil_r. reflexivity. }
    assert (forall out,
               match false_statements with
               | Some l =>
                   print "} else {" ;;;
                   IRPrinter_visit_StmtList type_hint name serialize
                     binary_type_name format_value l
               | None => ret tt
               end (mkIRPrinter (-1) out)
               = Return tt
                   (mkIRPrinter (-1)
                      (out ++ match false_statements with
                              | Some l =>
                                  line 0 "} else {"
                                    :: format_block type_hint name serialize
                                         binary_type_name format_value 0 l
                              | None => []
                              end))) as Ef.
    { intros out. destruct false_statements as [l |].
      - rewrite (bind_Return _ _ _ _ _ (print_appends _ _ _)), B.
        rewrite <- app_assoc. reflexivity.
      - rewrite app_nil_r. reflexivity. }
    simpl IRPrinter_visit.
    rewrite (bind_Return _ _ _ _ _ (print_appends _ _ _)).
    rewrite (bind_Return _ _ _ _ _ (Et _)).
    rewrite (bind_Return _ _ _ _ _ (Ef _)).
    rewrite print_appends. simpl. rewrite <- ?app_assoc. reflexivity.
  - simpl IRPrinter_visit.
    rewrite (bind_Return _ _ _ _ _ (print_appends _ _ _)).
    rewrite (bind_Return _ _ _ _ _ (B _ _)).
    rewrite print_appends. simpl. rewrite <- ?app_assoc. reflexivity.
Qed.

(** X12. Statements that stand side by side are printed independently of
    each other: what [IRPrinter::run] writes for a block is what it writes
    for the front part of its statements followed by what it writes for
    the rest, and the address of the block plays no part. *)
Theorem IRPrinter_run_app type_hint name serialize binary_type_name
    format_value (a a1 a2 : nat) (ss1 ss2 : list Statement) :
  exists o1 o2,
    IRPrinter_run type_hint name serialize binary_type_name format_value
      (mkStmtList a1 ss1) = Return tt (mkIRPrinter (-1) o1) /\
    IRPrinter_run type_hint name serialize binary_type_name format_value
      (mkStmtList a2 ss2) = Return tt (mkIRPrinter (-1) o2) /\
    IRPrinter_run type_hint name serialize binary_type_name format_value
      (mkStmtList a (ss1 ++ ss2)) = Return tt (mkIRPrinter (-1) (o1 ++ o2)).
Proof.
  eexists. eexists. rewrite !IRPrinter_run_format.
  split; [reflexivity |]. split; [reflexivity |].
  simpl. rewrite flat_map_app. reflexivity.
Qed.

(** ** Flattening on its own *)

Lemma flatten_unattached e :
  forall v c v' c',
    flatten e v c = Return v' c' ->
    Forall unattached v -> Forall unattached v'.
Proof.
  induction e as [i | z | t l IHl r IHr]; intros v c v' c' E Hv.
  - simpl in E. unfold bind, make_unique, ret in E. injection E as <- _.
    apply Forall_app. split; [exact Hv |]. repeat constructor.
  - simpl in E. unfold bind, make_unique, ret in E. injection E as <- _.
    apply Forall_app. split; [exact Hv |]. repeat constructor.
  - simpl in E. unfold bind at 1 in E.
    destruct (flatten l v c) as [v1 c1 | |] eqn:E1; try discriminate.
    unfold bind at 1, back_get at 1 in E.
    destruct (back v1) as [s1 |]; [| discriminate].
    unfold bind at 1 in E.
    destruct (flatten r v1 c1) as [v2 c2 | |] eqn:E2; try discriminate.
    unfold bind at 1, back_get at 1 in E.
    destruct (back v2) as [s2 |]; [| discriminate].
    unfold bind, make_unique, ret in E. injection E as <- _.
    apply Forall_app. split.
    + exact (IHr _ _ _ _ E2 (IHl _ _ _ _ E1 Hv)).
    + repeat constructor.
Qed.

(** X13. [LowerAST::expand] never fails and never throws, and leaves the
    tree as it is.  It returns a vector that is not empty, with one
    statement for each node of the expression; none of them has a parent
    yet, none owns a block, and none is high-level, so flattening never
    gives the pass new work. *)
Theorem LowerAST_expand_total (expr : Expr) (c : Context) :
  exists flattened,
    LowerAST_expand expr c
    = Return flattened
        (mkContext (root c) (id_counter c + List.length flattened))
    /\ flattened <> []
    /\ List.length flattened = expr_size expr
    /\ Forall unattached flattened.
Proof.
  unfold LowerAST_expand.
  destruct (flatten_spec expr [] c) as (out & E & L & (N & _)).
  simpl in E. exists out.
  split; [exact E |]. split; [exact N |]. split; [exact L |].
  exact (flatten_unattached expr [] c out _ E (Forall_nil _)).
Qed.
